(** * Income-distribution harmonisation: label parser, synthetic median,
      granularity dispatch.

    Shallow embedding of [load_census_sector_income.py] and of the
    module-level script of [load_census.py].

    Conventions of the embedding.
    - A Python [str] is a list of Unicode code points ([list N]).
    - A finite Python [float] is an exact rational ([Qc]); rounding and
      overflow are not modelled.  [float("nan")] is the constructor [NaN]
      of [pyfloat].
    - A Python exception is the constructor [Raise] of [result]. *)

From Stdlib Require Import List Bool Arith ZArith NArith Lia.
From Stdlib Require Import QArith Qcanon Lqa.
From Stdlib Require Import String Ascii.
From Stdlib Require Import Permutation Sorted.
Import ListNotations.

(* ------------------------------------------------------------------ *)
(** ** Python values *)

Definition str := list N.

(** Code points of an ASCII literal. *)
Definition py (s : string) : str :=
  map N_of_ascii (list_ascii_of_string s).

Definition a_acute : N := 225.   (* U+00E1 *)
Definition e_acute : N := 233.   (* U+00E9 *)
Definition i_acute : N := 237.   (* U+00ED *)

Inductive exn := ValueError | ZeroDivisionError | IndexError.

Inductive result (A : Type) :=
| Ok (a : A)
| Raise (e : exn).
Arguments Ok {A} a.
Arguments Raise {A} e.

Definition bind {A B} (m : result A) (f : A -> result B) : result B :=
  match m with
  | Ok a => f a
  | Raise e => Raise e
  end.

Notation "x <- m ;; k" := (bind m (fun x => k))
  (at level 61, m at next level, right associativity).

Inductive pyfloat :=
| Fin (q : Qc)
| NaN.

Definition Qcleb (x y : Qc) : bool := Qle_bool x y.
Definition Qcltb (x y : Qc) : bool := negb (Qle_bool y x).
Definition Qceqb (x y : Qc) : bool := Qeq_bool x y.

Definition QcN (n : N) : Qc := Q2Qc (inject_Z (Z.of_N n)).
Definition qz (z : Z) : Qc := Q2Qc (inject_Z z).

(* ------------------------------------------------------------------ *)
(** ** String primitives: [in], [str.strip], [str.lower], [str.split] *)

Module Str.

Fixpoint eqb (s t : str) : bool :=
  match s, t with
  | [], [] => true
  | c :: s', d :: t' => N.eqb c d && eqb s' t'
  | _, _ => false
  end.

(** [strip_prefix p s] is the rest of [s] after the literal [p]. *)
Fixpoint strip_prefix (p s : str) : option str :=
  match p with
  | [] => Some s
  | c :: p' =>
      match s with
      | d :: s' => if N.eqb c d then strip_prefix p' s' else None
      | [] => None
      end
  end.

(** [sub in s] *)
Fixpoint contains (sub s : str) : bool :=
  match strip_prefix sub s with
  | Some _ => true
  | None =>
      match s with
      | [] => false
      | _ :: s' => contains sub s'
      end
  end.

(** [str.isspace] on one code point: the characters whose bidirectional
    class is WS, B or S, or whose category is Zs. *)
Definition isspace (c : N) : bool :=
  ((9 <=? c) && (c <=? 13) || (28 <=? c) && (c <=? 32)
   || (c =? 133) || (c =? 160) || (c =? 5760)
   || (8192 <=? c) && (c <=? 8202)
   || (c =? 8232) || (c =? 8233) || (c =? 8239) || (c =? 8287)
   || (c =? 12288))%N.

Fixpoint lstrip (s : str) : str :=
  match s with
  | c :: s' => if isspace c then lstrip s' else s
  | [] => []
  end.

Definition strip (s : str) : str := rev (lstrip (rev (lstrip s))).

(** [str.lower] on the Basic Latin and Latin-1 Supplement blocks; code
    points above U+00FF are left as they are. *)
Definition lower_char (c : N) : N :=
  (if (65 <=? c) && (c <=? 90) then c + 32
   else if (192 <=? c) && (c <=? 222) && negb (c =? 215) then c + 32
   else c)%N.

Definition lower (s : str) : str := map lower_char s.

(** [s.split(sep, 1)] for a one-character separator that occurs in [s]:
    the text before and after its first occurrence. *)
Fixpoint split1 (sep : N) (s : str) : option (str * str) :=
  match s with
  | [] => None
  | c :: s' =>
      if N.eqb c sep then Some ([], s')
      else match split1 sep s' with
           | Some (l, r) => Some (c :: l, r)
           | None => None
           end
  end.

(** [s.replace(old, new)] for a one-character [old]. *)
Definition replace (old : N) (new : str) (s : str) : str :=
  flat_map (fun c => if N.eqb c old then new else [c]) s.

End Str.

(* ------------------------------------------------------------------ *)
(** ** [float(text)] *)

Definition isdigit (c : N) : bool := ((48 <=? c) && (c <=? 57))%N.

(** Value of a non-empty run of ASCII digits, most significant first. *)
Fixpoint digits_acc (acc : N) (s : str) : option N :=
  match s with
  | [] => Some acc
  | c :: s' => if isdigit c then digits_acc (10 * acc + (c - 48)) s' else None
  end.

Definition digits (s : str) : option N :=
  match s with
  | [] => None
  | _ => digits_acc 0 s
  end.

(** [float(s)] on unsigned decimal literals [D+] and [D+.D+], which are the
    only texts the patterns below can capture; any other text is a
    [ValueError] in this model (Python accepts signs, exponents and a few
    words as well). *)
Definition py_float (s : str) : result Qc :=
  match Str.split1 46 s with
  | None =>
      match digits s with
      | Some n => Ok (QcN n)
      | None => Raise ValueError
      end
  | Some (ip, fp) =>
      match digits ip, digits fp with
      | Some n, Some m =>
          Ok (QcN n + QcN m / QcN (10 ^ N.of_nat (List.length fp)))%Qc
      | _, _ => Raise ValueError
      end
  end.

(** Python's [/] on floats. *)
Definition py_div (x y : Qc) : result Qc :=
  if Qceqb y 0 then Raise ZeroDivisionError else Ok (x / y)%Qc.

(* ------------------------------------------------------------------ *)
(** ** The fragment of [re] the patterns use *)

Module Re.

Inductive re :=
| Lit (s : str)                 (* a literal text *)
| Cls (p : N -> bool)           (* one character of a class *)
| Star (p : N -> bool)          (* greedy [c*] over a class *)
| Opt (r : re)                  (* greedy [(?:r)?] *)
| Alt (r1 r2 : re)              (* [r1|r2], left first *)
| Seq (r1 r2 : re)
| Group (i : nat) (r : re)      (* capturing group number [i] *)
| Eos.                          (* [$] *)

Definition Plus (p : N -> bool) : re := Seq (Cls p) (Star p).

(** Captured groups, latest binding first. *)
Definition caps := list (nat * str).

Fixpoint group (m : caps) (i : nat) : str :=
  match m with
  | [] => []
  | (j, s) :: m' => if Nat.eqb i j then s else group m' i
  end.

(** Backtracking matcher in continuation-passing style: [k] is what remains
    to be matched after [r]; alternatives are tried in the order of the
    backtracking engine (longest repetition first, left alternative
    first). *)
Fixpoint rmatch (r : re) (inp : str) (cs : caps)
         (k : str -> caps -> option caps) {struct r} : option caps :=
  match r with
  | Lit s =>
      match Str.strip_prefix s inp with
      | Some rest => k rest cs
      | None => None
      end
  | Cls p =>
      match inp with
      | c :: rest => if p c then k rest cs else None
      | [] => None
      end
  | Star p =>
      (fix star (inp : str) : option caps :=
         match inp with
         | c :: rest =>
             if p c then
               match star rest with
               | Some m => Some m
               | None => k inp cs
               end
             else k inp cs
         | [] => k inp cs
         end) inp
  | Opt r1 =>
      match rmatch r1 inp cs k with
      | Some m => Some m
      | None => k inp cs
      end
  | Alt r1 r2 =>
      match rmatch r1 inp cs k with
      | Some m => Some m
      | None => rmatch r2 inp cs k
      end
  | Seq r1 r2 => rmatch r1 inp cs (fun inp' cs' => rmatch r2 inp' cs' k)
  | Group i r1 =>
      rmatch r1 inp cs
        (fun inp' cs' =>
           k inp' ((i, firstn (List.length inp - List.length inp') inp) :: cs'))
  | Eos =>
      match inp with
      | [] => k inp cs
      | [10%N] => k inp cs
      | _ => None
      end
  end.

(** [re.search(r, s)]: the match at the leftmost position that has one. *)
Fixpoint search (r : re) (inp : str) : option caps :=
  match rmatch r inp [] (fun _ cs => Some cs) with
  | Some m => Some m
  | None =>
      match inp with
      | [] => None
      | _ :: rest => search r rest
      end
  end.

Definition space : re := Star Str.isspace.                 (* \s* *)
Definition dot_star : re := Star (fun c => negb (N.eqb c 10)). (* .* *)
Definition one_of (l : list N) : re :=
  Cls (fun c => existsb (N.eqb c) l).

Fixpoint seq (l : list re) : re :=
  match l with
  | [] => Lit []
  | [r] => r
  | r :: l' => Seq r (seq l')
  end.

End Re.

(* ------------------------------------------------------------------ *)
(** ** [load_census_sector_income.py]: the label parser *)

Import Re.

(** [frac_pattern = r"([0-9]+(?:\/[0-9]+)?)"], as group [i]. *)
Definition frac_pattern (i : nat) : re :=
  Group i (Seq (Plus isdigit) (Opt (Seq (Lit (py "/")) (Plus isdigit)))).

(** [([0-9]+(?:[\.,][0-9]+)?)], as group [i]. *)
Definition amount_pattern (i : nat) : re :=
  Group i (Seq (Plus isdigit) (Opt (Seq (one_of [46; 44]%N) (Plus isdigit)))).

(** [(sm|sal[aá]rio)], as group [i]. *)
Definition sm_token (i : nat) : re :=
  Group i (Alt (Lit (py "sm"))
               (seq [Lit (py "sal"); one_of [97%N; a_acute]; Lit (py "rio")])).

Definition ate : str := py "at" ++ [e_acute].
Definition salario_acc : str := py "sal" ++ [a_acute] ++ py "rio".

(** [rf"até\s*{frac_pattern}.*(sm|sal[aá]rio)"] *)
Definition re_ate_sm : re :=
  seq [Lit ate; space; frac_pattern 1; dot_star; sm_token 2].

(** [rf"mais de\s*{frac_pattern}.*a\s*{frac_pattern}.*(sm|sal[aá]rio)"] *)
Definition re_mais_de_a_sm : re :=
  seq [Lit (py "mais de"); space; frac_pattern 1; dot_star; Lit (py "a");
       space; frac_pattern 2; dot_star; sm_token 3].

(** [rf"mais de\s*{frac_pattern}.*(sm|sal[aá]rio)"] *)
Definition re_mais_de_sm : re :=
  seq [Lit (py "mais de"); space; frac_pattern 1; dot_star; sm_token 2].

(** [r"at[eé]\s*([0-9]+(?:[\.,][0-9]+)?)"] *)
Definition re_ate : re :=
  seq [Lit (py "at"); one_of [101%N; e_acute]; space; amount_pattern 1].

(** [r"mais de\s*([0-9]+(?:[\.,][0-9]+)?)\s*a\s*([0-9]+(?:[\.,][0-9]+)?)"] *)
Definition re_mais_de_a : re :=
  seq [Lit (py "mais de"); space; amount_pattern 1; space; Lit (py "a");
       space; amount_pattern 2].

(** [r"mais de\s*([0-9]+(?:[\.,][0-9]+)?)$"] *)
Definition re_mais_de : re :=
  seq [Lit (py "mais de"); space; amount_pattern 1; Eos].

Definition eval_fraction (expr : str) : result Qc :=
  if Str.contains (py "/") expr then
    match Str.split1 47 expr with
    | Some (n, d) =>
        x <- py_float n ;;
        y <- py_float d ;;
        py_div x y
    | None => Raise ValueError
    end
  else py_float expr.

Definition to_float (txt : str) : result Qc :=
  py_float (Str.replace 44 (py ".") (Str.replace 46 [] txt)).

Definition bounds := (option Qc * option Qc)%type.

(** ["salário" in s or "salario" in s or "sm" in s] *)
Definition mentions_sm (s : str) : bool :=
  Str.contains salario_acc s || Str.contains (py "salario") s
  || Str.contains (py "sm") s.

(** The body of [parse_bounds_from_label] after [s = label.strip().lower()]. *)
Definition parse_bounds_norm (s : str) (sm : Qc) : result bounds :=
  if Str.contains (py "sem rendimento") s then Ok (Some 0, Some 0)%Qc
  else
    let currency :=
      match search re_ate s with
      | Some m =>
          v <- to_float (group m 1) ;;
          Ok (Some 0%Qc, Some v)
      | None =>
      match search re_mais_de_a s with
      | Some m =>
          a <- to_float (group m 1) ;;
          b <- to_float (group m 2) ;;
          Ok (Some a, Some b)
      | None =>
      match search re_mais_de s with
      | Some m =>
          a <- to_float (group m 1) ;;
          Ok (Some a, None)
      | None => Ok (None, None)
      end end end in
    if mentions_sm s then
      match search re_ate_sm s with
      | Some m =>
          x <- eval_fraction (group m 1) ;;
          Ok (Some 0%Qc, Some (x * sm)%Qc)
      | None =>
      match search re_mais_de_a_sm s with
      | Some m =>
          a <- eval_fraction (group m 1) ;;
          b <- eval_fraction (group m 2) ;;
          Ok (Some (a * sm)%Qc, Some (b * sm)%Qc)
      | None =>
      match search re_mais_de_sm s with
      | Some m =>
          a <- eval_fraction (group m 1) ;;
          Ok (Some (a * sm)%Qc, None)
      | None => currency
      end end end
    else currency.

Definition parse_bounds_from_label (label : str) (sm : Qc) : result bounds :=
  parse_bounds_norm (Str.lower (Str.strip label)) sm.

(* ------------------------------------------------------------------ *)
(** ** [load_census_sector_income.py]: the synthetic median *)

(** A class [(min, max, freq)]; each component may be [None]. *)
Definition class := (option Qc * option Qc * option Qc)%type.

Definition c_min (c : class) : option Qc := fst (fst c).
Definition c_max (c : class) : option Qc := snd (fst c).
Definition c_freq (c : class) : option Qc := snd c.

(** The sort key [x[0] if x[0] is not None else -math.inf]: [None] stands
    for minus infinity. *)
Definition key_ltb (k1 k2 : option Qc) : bool :=
  match k1, k2 with
  | None, None => false
  | None, Some _ => true
  | Some _, None => false
  | Some a, Some b => Qcltb a b
  end.

(** [sorted(classes, key=...)]: a stable sort that compares keys with [<]
    only.  An element goes before the first one whose key is not below
    its own, so equal keys keep the order of the input. *)
Fixpoint insert (x : class) (l : list class) : list class :=
  match l with
  | [] => [x]
  | y :: l' =>
      if key_ltb (c_min y) (c_min x) then y :: insert x l' else x :: l
  end.

Fixpoint sorted (l : list class) : list class :=
  match l with
  | [] => []
  | x :: l' => insert x (sorted l')
  end.

(** [sum(c[2] for c in classes if c[2] is not None)] *)
Fixpoint sum_freq (l : list class) : Qc :=
  match l with
  | [] => 0
  | c :: l' =>
      match c_freq c with
      | Some f => f + sum_freq l'
      | None => sum_freq l'
      end
  end%Qc.

Definition or_zero (a : option Qc) : Qc :=
  match a with
  | Some x => x
  | None => 0%Qc
  end.

(** The [for (a, b, f) in classes] loop; [None] when the loop ends without
    returning. *)
Fixpoint walk (target cum_prev : Qc) (classes : list class)
  : option (result pyfloat) :=
  match classes with
  | [] => None
  | (a, b, f) :: rest =>
      match f with
      | None => walk target cum_prev rest
      | Some f =>
          if Qceqb f 0 then walk target cum_prev rest
          else
            let next_cum := (cum_prev + f)%Qc in
            if Qcleb target next_cum then
              let L := or_zero a in
              match b with
              | None => Some (Ok (Fin L))
              | Some b =>
                  if Qcleb b L then Some (Ok (Fin L))
                  else
                    let w := (b - L)%Qc in
                    Some (inside <- py_div (target - cum_prev) f ;;
                          Ok (Fin (L + inside * w)%Qc))
              end
            else walk target next_cum rest
      end
  end.

Definition synthetic_median_from_classes (classes : list class)
  : result pyfloat :=
  let classes := sorted classes in
  let total := sum_freq classes in
  if Qcleb total 0 then Ok NaN
  else
    let target := (Q2Qc (1 # 2) * total)%Qc in
    match walk target 0%Qc classes with
    | Some r => r
    | None =>
        match rev classes with
        | [] => Raise IndexError
        | c :: _ => Ok (Fin (or_zero (c_min c)))
        end
    end.

(* ------------------------------------------------------------------ *)
(** ** [load_census_sector_income.py]: medians per municipality *)

(** A row of the data frame after the column normalisation of
    [compute_median_from_csv]: [cd_mun] as text, [categoria], and [valor]
    already numeric (unreadable values replaced by 0). *)
Record row := Row { cd_mun : str; categoria : str; valor : Qc }.

(** Order of Python strings: lexicographic on code points. *)
Fixpoint str_ltb (s t : str) : bool :=
  match s, t with
  | _, [] => false
  | [], _ :: _ => true
  | c :: s', d :: t' => N.ltb c d || (N.eqb c d && str_ltb s' t')
  end.

Fixpoint insert_key (k : str) (l : list str) : list str :=
  match l with
  | [] => [k]
  | y :: l' =>
      if Str.eqb k y then l
      else if str_ltb k y then k :: l
      else y :: insert_key k l'
  end.

(** The group keys of [df.groupby("cd_mun")]: the distinct codes, in
    increasing order. *)
Fixpoint group_keys (rows : list row) : list str :=
  match rows with
  | [] => []
  | r :: rows' => insert_key (cd_mun r) (group_keys rows')
  end.

Definition group_rows (k : str) (rows : list row) : list row :=
  filter (fun r => Str.eqb (cd_mun r) k) rows.

(** The inner loop over the rows of one group. *)
Fixpoint build_classes (g : list row) (sm : Qc) : result (list class) :=
  match g with
  | [] => Ok []
  | r :: g' =>
      ab <- parse_bounds_from_label (categoria r) sm ;;
      match ab with
      | (None, None) => build_classes g' sm
      | (a, b) =>
          rest <- build_classes g' sm ;;
          Ok ((Some (or_zero a), b, Some (valor r)) :: rest)
      end
  end.

(** The outer loop over the groups; the result is the list of the
    dictionaries [{"cd_mun": ..., "vl_renda_setor": ...}] appended to [rows]. *)
Fixpoint medians (keys : list str) (rows : list row) (sm : Qc)
  : result (list (str * pyfloat)) :=
  match keys with
  | [] => Ok []
  | k :: keys' =>
      classes <- build_classes (group_rows k rows) sm ;;
      match classes with
      | [] => medians keys' rows sm
      | _ =>
          med <- synthetic_median_from_classes classes ;;
          rest <- medians keys' rows sm ;;
          Ok ((k, med) :: rest)
      end
  end.

(** [compute_median_from_csv] from its grouping loop on, applied to the
    normalised frame.  What comes before is not part of the model: reading
    the file, which can fail, and the check that the columns [cd_mun],
    [categoria] and [valor] are there, which raises [RuntimeError]. *)
Definition compute_median_from_csv (rows : list row) (sm : Qc)
  : result (list (str * pyfloat)) :=
  medians (group_keys rows) rows sm.

(* ------------------------------------------------------------------ *)
(** ** [load_census.py]: the script from the normalisation of [df_renda] on

    The store is seen through the requests the script sends to it, in
    order.  Requests sent inside a [with engine.begin()] block that is left
    by an exception are rolled back and do not appear.  The store itself is
    assumed to accept every request. *)

Module Census.

#[local] Open Scope nat_scope.

Record config := Config {
  table_name : str;       (* CENSO_TABLE *)
  staging_table : str     (* AGREGADO_STAGING_TABLE *)
}.

Definition frame := list (str * Qc).   (* rows (cd_setor, vl_renda) *)

Inductive db_op :=
| AddColumn (tbl col : str)
| ToSql (tbl : str) (cols : list str) (rows : frame)  (* if_exists='replace' *)
| UpdateJoin (tbl tgt_col src src_col : str)
| DropTable (tbl : str).

Inductive outcome :=
| Completed            (* the script runs to its last line *)
| Exit0                (* raise SystemExit(0) *)
| ExitNoJoinColumn.    (* raise SystemExit("Nenhuma coluna de junção ...") *)

Definition lengths (df : frame) : list nat :=
  map (fun r => List.length (fst r)) df.

(** [int(df_renda["cd_setor"].str.len().mean())], 0 on an empty frame; the
    mean is taken exactly, so its integer part is the quotient. *)
Definition avg_len (df : frame) : nat :=
  match df with
  | [] => 0
  | _ => list_sum (lengths df) / List.length df
  end.

Definition count (x : nat) (l : list nat) : nat := count_occ Nat.eq_dec l x.

(** [Series.mode()] lists the most frequent values in increasing order and
    [.iat[0]] takes the first: [x] replaces the candidate when it is more
    frequent, or as frequent and smaller. *)
Definition mode_step (l : list nat) (best x : nat) : nat :=
  if (count best l <? count x l)
     || ((count x l =? count best l) && (x <? best))
  then x else best.

Definition mode_of (l : list nat) : nat :=
  fold_left (mode_step l) l (hd 0 l).

(** [int(df_renda["cd_setor"].str.len().mode().iat[0])], 0 on an empty
    frame. *)
Definition id_len (df : frame) : nat :=
  match df with
  | [] => 0
  | _ => mode_of (lengths df)
  end.

Definition vl_renda : str := py "vl_renda".

(** The column check and [ALTER TABLE ... ADD COLUMN vl_renda NUMERIC];
    [columns] are the column names of the target table.  The check looks
    the table up in schema [public] under its lower-cased name while the
    [ALTER] uses the name as configured: the two are taken to name the same
    table, as they do for an unqualified lower-case name. *)
Definition ensure_column (cfg : config) (columns : list str)
  : list db_op * list str :=
  if existsb (Str.eqb vl_renda) columns then ([], columns)
  else ([AddColumn (table_name cfg) vl_renda], columns ++ [vl_renda]).

Definition preferred_order : list str :=
  [py "cd_setor"; py "cd_censit"; py "cd_set"; py "cd_setor_censitario";
   py "cd_censitario"].

(** [name_map[c]] for [name_map = {r[0].lower(): r[0] for r in rows}]: of
    the columns whose lower-cased name is [c], the last one. *)
Definition name_map_get (columns : list str) (c : str) : option str :=
  find (fun col => Str.eqb (Str.lower col) c) (rev columns).

(** [name_map[next(c for c in preferred_order if c in name_map)]] *)
Fixpoint join_column (pref : list str) (columns : list str) : option str :=
  match pref with
  | [] => None
  | c :: pref' =>
      match name_map_get columns c with
      | Some col => Some col
      | None => join_column pref' columns
      end
  end.

Definition run (cfg : config) (columns : list str) (df_renda : frame)
  : list db_op * outcome :=
  let tbl := table_name cfg in
  if avg_len df_renda <? 13 then
    let id_len := id_len df_renda in
    let update :=
      if id_len =? 7 then
        [ToSql (py "temp_renda_mun") [py "cd_mun"; vl_renda] df_renda;
         UpdateJoin tbl (py "CD_MUN") (py "temp_renda_mun") (py "cd_mun");
         DropTable (py "temp_renda_mun")]
      else if id_len =? 2 then
        [ToSql (py "temp_renda_uf") [py "cd_uf"; vl_renda] df_renda;
         UpdateJoin tbl (py "CD_UF") (py "temp_renda_uf") (py "cd_uf");
         DropTable (py "temp_renda_uf")]
      else [] in
    let staging :=
      [ToSql (staging_table cfg) [py "id_localidade"; py "valor"] df_renda] in
    (fst (ensure_column cfg columns) ++ update ++ staging, Exit0)
  else
    let (added, columns') := ensure_column cfg columns in
    match join_column preferred_order columns' with
    | None => ([], ExitNoJoinColumn)
    | Some join_col =>
        (added
         ++ [ToSql (py "temp_renda") [py "cd_setor"; vl_renda] df_renda;
             UpdateJoin tbl join_col (py "temp_renda") (py "cd_setor");
             DropTable (py "temp_renda")],
         Completed)
    end.

(** The column of the target table the run joins on, if it updates. *)
Fixpoint update_column (ops : list db_op) : option str :=
  match ops with
  | [] => None
  | UpdateJoin _ col _ _ :: _ => Some col
  | _ :: ops' => update_column ops'
  end.

(** Whether the run writes the table [tbl] with [to_sql]. *)
Definition writes_table (tbl : str) (ops : list db_op) : bool :=
  existsb (fun op => match op with
                     | ToSql t _ _ => Str.eqb t tbl
                     | _ => false
                     end) ops.

(** *** Vocabulary of the statements and sample inputs *)

(** [m] is the mode the script reads: a length that occurs, no length
    occurs more often, and among the most frequent ones it is the least. *)
Definition is_mode (l : list nat) (m : nat) : Prop :=
  In m l
  /\ forall x, In x l ->
               count x l <= count m l /\ (count x l = count m l -> m <= x).

(** [a] is at least as good a candidate for the mode as [b]. *)
Definition at_least_as_good (l : list nat) (a b : nat) : Prop :=
  count b l < count a l \/ (count a l = count b l /\ a <= b).

Definition sp_config : config :=
  Config (py "sp_setores") (py "ibge_agregado_result").

Definition sp_columns : list str :=
  [py "CD_SETOR"; py "CD_MUN"; py "CD_UF"; py "geometry"].

Definition municipal_frame : frame :=
  [(py "3550308", qz 2100); (py "3304557", qz 1900); (py "35", qz 2000)].

(** Two sector codes of 15 digits and one stray one-digit code. *)
Definition stray_frame : frame :=
  [(py "355030801000001", qz 2100); (py "355030801000002", qz 1900);
   (py "3", qz 2000)].

Definition sector_frame : frame :=
  [(py "355030801000001", qz 2100); (py "355030801000002", qz 1900)].

End Census.

(* ------------------------------------------------------------------ *)
(** ** Vocabulary of the statements and sample inputs *)

Definition example_classes : list class :=
  [(Some (qz 0), Some (qz 100), Some (qz 10));
   (Some (qz 100), Some (qz 200), Some (qz 20));
   (Some (qz 200), None, Some (qz 10))].

Definition tied_classes : list class :=
  [(Some (qz 0), Some (qz 100), Some (qz 1));
   (Some (qz 0), Some (qz 50), Some (qz 1))].

Definition key_eqb (k1 k2 : option Qc) : bool :=
  match k1, k2 with
  | None, None => true
  | Some a, Some b => Qceqb a b
  | _, _ => false
  end.

Fixpoint distinct_keys (l : list class) : bool :=
  match l with
  | [] => true
  | x :: l' =>
      negb (existsb (fun y => key_eqb (c_min x) (c_min y)) l')
      && distinct_keys l'
  end.

Definition matches (r : re) (s : str) : bool :=
  match search r s with
  | Some _ => true
  | None => false
  end.

(** The label mentions the minimum wage and one of the three minimum-wage
    patterns matches it. *)
Definition sm_recognized (label : str) : bool :=
  let s := Str.lower (Str.strip label) in
  mentions_sm s
  && (matches re_ate_sm s || matches re_mais_de_a_sm s
      || matches re_mais_de_sm s).

Definition scale (k : Qc) (b : bounds) : bounds :=
  (option_map (Qcmult k) (fst b), option_map (Qcmult k) (snd b)).

Definition ate_meio_sm : str :=
  py "at" ++ [e_acute] ++ py " 1/2 sal" ++ [a_acute] ++ py "rio m"
  ++ [i_acute] ++ py "nimo".

(** The row contributes a class: its label parses to something other than
    [(None, None)]. *)
Definition parseable (r : row) (sm : Qc) : bool :=
  match parse_bounds_from_label (categoria r) sm with
  | Ok (None, None) => false
  | Ok _ => true
  | Raise _ => false
  end.

Definition unreadable_rows : list row :=
  [Row (py "3550308") (py "Faixa desconhecida") (qz 5);
   Row (py "3550308") (py "Acima de 2100") (qz 7)].

Definition mixed_rows : list row :=
  [Row (py "3550308") (py "Ate 100") (qz 10);
   Row (py "1200401") (py "Faixa desconhecida") (qz 5);
   Row (py "3550308") (py "Mais de 100 a 200") (qz 30);
   Row (py "2304400") (py "Mais de 100 a 200") (qz 0)].

Definition zero_denominator_label : str :=
  py "Mais de 1/0 a 2 sal" ++ [a_acute] ++ py "rios m" ++ [i_acute]
  ++ py "nimos".

(** The class with its frequency multiplied by [k]. *)
Definition scale_freq (k : Qc) (c : class) : class :=
  (c_min c, c_max c, option_map (Qcmult k) (c_freq c)).

(** The class counts in the walk: its frequency is neither [None] nor 0. *)
Definition live (c : class) : bool :=
  match c_freq c with
  | Some f => negb (Qceqb f 0)
  | None => false
  end.

(** The keys of a list go up, equal keys allowed. *)
Definition keys_ascend (l : list class) : Prop :=
  StronglySorted (fun x y => key_ltb (c_min y) (c_min x) = false) l.

(** What a successful match of [r] does: it consumes [inp] down to [inp']
    and takes the captures from [cs] to [cs']. *)
Fixpoint denotes (r : re) (inp inp' : str) (cs cs' : caps) : Prop :=
  match r with
  | Lit s => inp = s ++ inp' /\ cs' = cs
  | Cls p => exists c, inp = c :: inp' /\ p c = true /\ cs' = cs
  | Star p => exists w, inp = w ++ inp' /\ forallb p w = true /\ cs' = cs
  | Opt r1 => denotes r1 inp inp' cs cs' \/ (inp' = inp /\ cs' = cs)
  | Alt r1 r2 => denotes r1 inp inp' cs cs' \/ denotes r2 inp inp' cs cs'
  | Seq r1 r2 =>
      exists mid csm, denotes r1 inp mid cs csm /\ denotes r2 mid inp' csm cs'
  | Group i r1 =>
      exists cs1,
        denotes r1 inp inp' cs cs1
        /\ cs' = (i, firstn (List.length inp - List.length inp') inp) :: cs1
  | Eos => inp' = inp /\ cs' = cs
  end.

(** A non-empty run of ASCII digits. *)
Definition digit_run (w : str) : Prop := w <> [] /\ forallb isdigit w = true.

(** The texts of [frac_pattern]: [D+] and [D+/D+]. *)
Definition frac_text (w : str) : Prop :=
  digit_run w
  \/ exists n d, digit_run n /\ digit_run d /\ w = n ++ [47%N] ++ d.

(** The texts of [amount_pattern]: [D+], [D+.D+] and [D+,D+]. *)
Definition amount_text (w : str) : Prop :=
  digit_run w
  \/ exists n d, digit_run n /\ digit_run d
                 /\ (w = n ++ [46%N] ++ d \/ w = n ++ [44%N] ++ d).

(** The unit codes go up strictly in the order of Python strings. *)
Definition codes_ascend (l : list str) : Prop :=
  StronglySorted (fun a b => str_ltb a b = true) l.

(* ------------------------------------------------------------------ *)
(** ** [load_census.py]: what a run leaves in the store *)

(** The tables written with [to_sql] and not dropped since, latest first. *)
Fixpoint tables_after (ops : list Census.db_op) (tables : list str)
  : list str :=
  match ops with
  | [] => tables
  | Census.ToSql t _ _ :: ops' => tables_after ops' (t :: tables)
  | Census.DropTable t :: ops' =>
      tables_after ops' (filter (fun x => negb (Str.eqb x t)) tables)
  | _ :: ops' => tables_after ops' tables
  end.

(* ------------------------------------------------------------------ *)
(** ** [load_census.py]: [_build_url] and [_fetch_chunked] *)

Module Fetch.

#[local] Open Scope nat_scope.

(** The values of [range(i, stop, step)] for a positive [step]; [fuel]
    bounds their number. *)
Fixpoint range_from (fuel i stop step : nat) : list nat :=
  match fuel with
  | 0 => []
  | S fuel' =>
      if i <? stop then i :: range_from fuel' (i + step) stop step else []
  end.

(** [range(0, stop, step)]: a zero step raises ValueError and a negative
    one gives no value. *)
Definition py_range (stop : nat) (step : Z) : result (list nat) :=
  if (step =? 0)%Z then Raise ValueError
  else if (step <? 0)%Z then Ok []
  else Ok (range_from stop 0 stop (Z.to_nat step)).

(** [l[i:i+size]] for a positive [size]. *)
Definition slice {A : Type} (l : list A) (i size : nat) : list A :=
  firstn size (skipn i l).

(** [sep.join(l)] *)
Fixpoint join (sep : str) (l : list str) : str :=
  match l with
  | [] => []
  | [x] => x
  | x :: l' => x ++ sep ++ join sep l'
  end.

Record request := Request {
  base_url : str;
  classificacao : str     (* AGREGADO_CLASSIFICACAO, empty when unset *)
}.

Definition build_url (rq : request) (localidades_param : str) : str :=
  let p := py "?localidades=" ++ localidades_param in
  let p :=
    match classificacao rq with
    | [] => p
    | _ => p ++ py "&classificacao=" ++ classificacao rq
    end in
  base_url rq ++ p.

Section Lots.

(** The blocks the service returns for a URL; [None] when the request
    fails or the answer is not a list. *)
Variable J : Type.
Variable get : str -> option (list J).
Variable rq : request.

Definition lot_url (sub : list str) : str :=
  build_url rq (py "N6[" ++ join (py ",") sub ++ py "]").

(** The body of the [for] loop over the starts of the lots. *)
Fixpoint fetch_lots (starts : list nat) (loc_codes : list str)
         (chunk_size : nat) (data_all : list J) : list J :=
  match starts with
  | [] => data_all
  | i :: starts' =>
      let sub := slice loc_codes i chunk_size in
      fetch_lots starts' loc_codes chunk_size
        (match get (lot_url sub) with
         | Some d => data_all ++ d
         | None => data_all
         end)
  end.

(** [_fetch_chunked], with [chunk_size] the integer read from
    IBGE_CHUNK_SIZE. *)
Definition fetch_chunked (chunk_size : Z) (loc_codes : list str)
  : result (list J) :=
  starts <- py_range (List.length loc_codes) chunk_size ;;
  Ok (fetch_lots starts loc_codes (Z.to_nat chunk_size) []).

(** The lots requested, in order. *)
Definition lots (chunk_size : Z) (loc_codes : list str)
  : result (list (list str)) :=
  starts <- py_range (List.length loc_codes) chunk_size ;;
  Ok (map (fun i => slice loc_codes i (Z.to_nat chunk_size)) starts).

End Lots.

(** Sample inputs. *)

Definition sample_get (url : str) : option (list nat) :=
  if Str.contains (py "2304400") url then None else Some [List.length url].

Definition sample_request : request :=
  Request (py "https://servicodados.ibge.gov.br/api/v3/agregados/3563")
          (py "").

End Fetch.

(* ------------------------------------------------------------------ *)
(** ** [load_census_sector_income.py]: [upsert_to_db] and [main] *)

Module SectorIncome.

Definition medians_frame := list (str * pyfloat). (* (cd_mun, vl_renda_setor) *)

Inductive db_op :=
| AddColumn (tbl col : str)
| ToSql (tbl : str) (cols : list str) (rows : medians_frame)
| UpdateJoin (tbl tgt_col src src_col : str)
| DropTable (tbl : str).

Inductive outcome :=
| Done       (* main returns *)
| Exit2.     (* raise SystemExit(2) *)

Definition vl_renda_setor : str := py "vl_renda_setor".
Definition temp_mediana_mun : str := py "temp_mediana_mun".

(** [upsert_to_db]; [columns] are the column names of the target table. *)
Definition upsert_to_db (table_name : str) (columns : list str)
           (df_median : medians_frame) : list db_op :=
  (if existsb (Str.eqb vl_renda_setor) columns then []
   else [AddColumn table_name vl_renda_setor])
  ++ [ToSql temp_mediana_mun [py "cd_mun"; vl_renda_setor] df_median;
      UpdateJoin table_name (py "CD_MUN") temp_mediana_mun (py "cd_mun");
      DropTable temp_mediana_mun].

(** [main]; [sm] is the minimum wage of the period, [csv] the rows of the
    CSV file when it exists, and [ibge] what [maybe_fetch_from_ibge] gives
    when it does not. *)
Definition main (table_name : str) (columns : list str) (sm : Qc)
           (csv : option (list row)) (ibge : result (option medians_frame))
  : result (list db_op * outcome) :=
  df_median <-
    match csv with
    | Some rows => df <- compute_median_from_csv rows sm ;; Ok (Some df)
    | None => ibge
    end ;;
  match df_median with
  | None => Ok ([], Exit2)
  | Some [] => Ok ([], Exit2)
  | Some df => Ok (upsert_to_db table_name columns df, Done)
  end.

End SectorIncome.

(** The target of the walk, [0.5 * total]. *)
Definition half_total (classes : list class) : Qc :=
  (Q2Qc (1 # 2) * sum_freq classes)%Qc.

(** The classes whose sort key is [k]. *)
Definition has_key (k : option Qc) (c : class) : bool := key_eqb (c_min c) k.

(* ================================================================== *)
(** * Properties *)

(* ------------------------------------------------------------------ *)
(** ** Comparisons on [Qc] *)

Lemma Qcleb_le (x y : Qc) : Qcleb x y = true <-> (x <= y)%Qc.
Proof. unfold Qcleb, Qcle. apply Qle_bool_iff. Qed.

Lemma Qcleb_gt (x y : Qc) : Qcleb x y = false <-> (y < x)%Qc.
Proof.
  split; intro H.
  - apply Qcnot_le_lt. intro L. apply Qcleb_le in L. congruence.
  - destruct (Qcleb x y) eqn:E; [|reflexivity].
    apply Qcleb_le in E. exfalso. exact (Qclt_not_le _ _ H E).
Qed.

Lemma Qcltb_lt (x y : Qc) : Qcltb x y = true <-> (x < y)%Qc.
Proof.
  unfold Qcltb. rewrite negb_true_iff. fold (Qcleb y x). apply Qcleb_gt.
Qed.

Lemma Qceqb_eq (x y : Qc) : Qceqb x y = true <-> x = y.
Proof.
  unfold Qceqb. rewrite Qeq_bool_iff. split.
  - apply Qc_is_canon.
  - intros ->. reflexivity.
Qed.

Lemma Qceqb_neq (x y : Qc) : Qceqb x y = false <-> x <> y.
Proof.
  split; intro H.
  - intro E. apply Qceqb_eq in E. congruence.
  - destruct (Qceqb x y) eqn:E; [|reflexivity].
    apply Qceqb_eq in E. contradiction.
Qed.

Lemma this_plus (x y : Qc) : (this (x + y)%Qc == this x + this y)%Q.
Proof. apply Qred_correct. Qed.

Lemma this_mult (x y : Qc) : (this (x * y)%Qc == this x * this y)%Q.
Proof. apply Qred_correct. Qed.

Lemma this_opp (x : Qc) : (this (- x)%Qc == - this x)%Q.
Proof. apply Qred_correct. Qed.

Lemma this_minus (x y : Qc) : (this (x - y)%Qc == this x - this y)%Q.
Proof. unfold Qcminus. rewrite this_plus, this_opp. reflexivity. Qed.

(** Linear goals on [Qc], sent to the underlying rationals. *)
Ltac qc_lra :=
  unfold Qcle, Qclt in *;
  repeat (rewrite ?this_plus, ?this_mult, ?this_minus, ?this_opp in *);
  simpl this in *; lra.

(** Closed equations between computed rationals. *)
Ltac qc_eq :=
  lazymatch goal with
  | |- @eq Qc _ _ => apply Qc_is_canon; reflexivity
  | |- Ok _ = Ok _ => apply f_equal; qc_eq
  | |- Fin _ = Fin _ => apply f_equal; qc_eq
  | |- Some _ = Some _ => apply f_equal; qc_eq
  | |- (_, _) = (_, _) => apply f_equal2; qc_eq
  | |- _ :: _ = _ :: _ => apply f_equal2; qc_eq
  | |- _ => reflexivity
  end.

Ltac qc_compute := vm_compute; qc_eq.

(* ------------------------------------------------------------------ *)
(** ** The estimator never raises *)

Lemma py_div_ok (x y : Qc) :
  Qceqb y 0 = false -> py_div x y = Ok (x / y)%Qc.
Proof. unfold py_div. intros ->. reflexivity. Qed.

Lemma walk_ok (target : Qc) (classes : list class) :
  forall cum_prev r,
    walk target cum_prev classes = Some r -> exists v, r = Ok v.
Proof.
  induction classes as [|[[a b] f] rest IH]; intros cum_prev r H; simpl in H.
  - discriminate.
  - destruct f as [f|]; [|eauto].
    destruct (Qceqb f 0) eqn:Ef; [eauto|].
    destruct (Qcleb target (cum_prev + f)); [|eauto].
    destruct b as [b|].
    + destruct (Qcleb b (or_zero a)).
      * injection H as <-. eauto.
      * rewrite (py_div_ok _ _ Ef) in H. simpl in H. injection H as <-. eauto.
    + injection H as <-. eauto.
Qed.

Lemma insert_not_nil (x : class) (l : list class) : insert x l <> [].
Proof. destruct l as [|y l]; simpl; [|destruct key_ltb]; discriminate. Qed.

Lemma sorted_nil_inv (l : list class) : sorted l = [] -> l = [].
Proof.
  destruct l as [|x l]; [reflexivity|]. simpl. intro H.
  destruct (insert_not_nil _ _ H).
Qed.

Lemma synthetic_median_ok (classes : list class) :
  exists v, synthetic_median_from_classes classes = Ok v.
Proof.
  unfold synthetic_median_from_classes.
  destruct (Qcleb (sum_freq (sorted classes)) 0) eqn:Et; [eauto|].
  destruct (walk _ _ (sorted classes)) as [r|] eqn:Ew.
  - eapply walk_ok; eassumption.
  - destruct (rev (sorted classes)) as [|c tl] eqn:Er; [|eauto].
    exfalso.
    assert (sorted classes = []) as E.
    { rewrite <- (rev_involutive (sorted classes)), Er. reflexivity. }
    rewrite E in Et. discriminate Et.
Qed.

(** C9.  The estimator is total: on every list of classes, [None] and zero
    frequencies included, it returns a value and raises nothing, and on the
    empty list that value is NaN. *)
Theorem synthetic_median_total :
  (forall classes : list class,
      exists v, synthetic_median_from_classes classes = Ok v)
  /\ synthetic_median_from_classes [] = Ok NaN.
Proof. split; [exact synthetic_median_ok | reflexivity]. Qed.

(* ------------------------------------------------------------------ *)
(** ** Shape of the bounds the parser returns *)

Ltac parser_cases H :=
  unfold parse_bounds_from_label, parse_bounds_norm, bind in H;
  repeat match type of H with
         | context [if ?c then _ else _] => destruct c eqn:?
         | context [match ?x with _ => _ end] => destruct x eqn:?
         end.

(** C10.  Whenever the parser returns an upper bound it returns a lower
    bound too: a missing lower bound occurs only in [(None, None)]. *)
Theorem parse_upper_has_lower (label : str) (sm : Qc) (lo : option Qc) (hi : Qc) :
  parse_bounds_from_label label sm = Ok (lo, Some hi) ->
  exists l, lo = Some l.
Proof.
  intro H. parser_cases H; inversion H; eauto.
Qed.

Lemma parse_ate_105 :
  parse_bounds_from_label (py "At" ++ [e_acute] ++ py " 105") (QcN 1212)
  = Ok (Some 0%Qc, Some (QcN 105)).
Proof. qc_compute. Qed.

Lemma parse_upper_has_lower_witness : exists l, Some 0%Qc = Some l.
Proof.
  exact (parse_upper_has_lower (py "At" ++ [e_acute] ++ py " 105") (QcN 1212)
           (Some 0%Qc) (QcN 105) parse_ate_105).
Defined.

(* ------------------------------------------------------------------ *)
(** ** The sort and the order of the input *)

Lemma key_ltb_asym (k1 k2 : option Qc) :
  key_ltb k1 k2 = true -> key_ltb k2 k1 = false.
Proof.
  destruct k1 as [a|], k2 as [b|]; simpl; try congruence.
  rewrite Qcltb_lt. intro H. destruct (Qcltb b a) eqn:E; [|reflexivity].
  apply Qcltb_lt in E. exfalso. exact (Qclt_not_eq _ _ (Qclt_trans _ _ _ H E) eq_refl).
Qed.

Lemma key_ltb_trans (k1 k2 k3 : option Qc) :
  key_ltb k1 k2 = true -> key_ltb k2 k3 = true -> key_ltb k1 k3 = true.
Proof.
  destruct k1 as [a|], k2 as [b|], k3 as [c|]; simpl; try congruence.
  rewrite !Qcltb_lt. apply Qclt_trans.
Qed.

Lemma key_ltb_total (k1 k2 : option Qc) :
  k1 <> k2 -> key_ltb k1 k2 = true \/ key_ltb k2 k1 = true.
Proof.
  destruct k1 as [a|], k2 as [b|]; simpl; intro H; auto; try congruence.
  rewrite !Qcltb_lt.
  destruct (Qc_dec a b) as [[Hlt|Hgt]|Heq]; auto. congruence.
Qed.

Lemma insert_swap (x y : class) (l : list class) :
  c_min x <> c_min y ->
  insert x (insert y l) = insert y (insert x l).
Proof.
  intro Hxy.
  assert (key_ltb (c_min x) (c_min y) = negb (key_ltb (c_min y) (c_min x)))
    as Hneg.
  { destruct (key_ltb_total _ _ Hxy) as [H|H];
      rewrite H, (key_ltb_asym _ _ H); reflexivity. }
  induction l as [|z l IH]; simpl.
  - rewrite Hneg. destruct (key_ltb (c_min y) (c_min x)); reflexivity.
  - destruct (key_ltb (c_min z) (c_min y)) eqn:Ezy,
             (key_ltb (c_min z) (c_min x)) eqn:Ezx; simpl;
      rewrite ?Ezy, ?Ezx.
    + rewrite IH. reflexivity.
    + destruct (key_ltb (c_min x) (c_min y)) eqn:Exy; [reflexivity|].
      symmetry in Hneg. apply negb_false_iff in Hneg.
      rewrite (key_ltb_trans _ _ _ Ezy Hneg) in Ezx. discriminate.
    + destruct (key_ltb (c_min y) (c_min x)) eqn:Eyx; [reflexivity|].
      simpl in Hneg.
      rewrite (key_ltb_trans _ _ _ Ezx Hneg) in Ezy. discriminate.
    + rewrite Hneg. destruct (key_ltb (c_min y) (c_min x)); simpl;
        rewrite ?Ezy, ?Ezx; reflexivity.
Qed.

Lemma sorted_permutation (l l' : list class) :
  Permutation l l' -> NoDup (map c_min l) -> sorted l = sorted l'.
Proof.
  induction 1 as [|x l l' _ IH|x y l|l l' l'' P1 IH1 P2 IH2]; intro N.
  - reflexivity.
  - simpl. inversion N; subst. rewrite IH by assumption. reflexivity.
  - simpl. apply insert_swap. inversion N as [|? ? Hin _]; subst.
    intro E. apply Hin. rewrite E. left. reflexivity.
  - rewrite IH1 by assumption. apply IH2.
    eapply Permutation_NoDup; [|exact N]. apply Permutation_map, P1.
Qed.

Lemma key_eqb_eq (k1 k2 : option Qc) : key_eqb k1 k2 = true <-> k1 = k2.
Proof.
  destruct k1 as [a|], k2 as [b|]; simpl; try (split; congruence).
  rewrite Qceqb_eq. split; congruence.
Qed.

Lemma distinct_keys_NoDup (l : list class) :
  distinct_keys l = true -> NoDup (map c_min l).
Proof.
  induction l as [|x l IH]; simpl; [constructor|].
  rewrite andb_true_iff, negb_true_iff. intros [Hx Hl].
  constructor; [|auto].
  intro Hin. apply in_map_iff in Hin. destruct Hin as (y & Ey & Hy).
  assert (existsb (fun y => key_eqb (c_min x) (c_min y)) l = true) as E.
  { apply existsb_exists. exists y. split; [assumption|].
    apply key_eqb_eq. congruence. }
  congruence.
Qed.

(** C3, as the code has it.  Two orderings of the same classes whose lower
    bounds are pairwise distinct ([None] counting as one bound) give the
    same median. *)
Theorem synthetic_median_permutation (l l' : list class) :
  Permutation l l' ->
  NoDup (map c_min l) ->
  synthetic_median_from_classes l = synthetic_median_from_classes l'.
Proof.
  intros P N. unfold synthetic_median_from_classes.
  rewrite (sorted_permutation _ _ P N). reflexivity.
Qed.

Lemma synthetic_median_permutation_witness :
  synthetic_median_from_classes
    [(Some (qz 200), None, Some (qz 10));
     (Some (qz 0), Some (qz 100), Some (qz 10));
     (Some (qz 100), Some (qz 200), Some (qz 20))]
  = synthetic_median_from_classes
      [(Some (qz 0), Some (qz 100), Some (qz 10));
       (Some (qz 200), None, Some (qz 10));
       (Some (qz 100), Some (qz 200), Some (qz 20))].
Proof.
  apply synthetic_median_permutation.
  - apply perm_swap.
  - apply distinct_keys_NoDup. vm_compute. reflexivity.
Defined.

Lemma tied_classes_median :
  synthetic_median_from_classes tied_classes = Ok (Fin (qz 100))
  /\ synthetic_median_from_classes (rev tied_classes) = Ok (Fin (qz 50)).
Proof. split; qc_compute. Qed.

(** Two computed rationals differ. *)
Ltac qc_discriminate H :=
  apply (f_equal (fun r => match r with
                           | Ok (Fin q) => this q
                           | _ => 0%Q
                           end)) in H;
  vm_compute in H; discriminate H.

(** C3 as stated fails: two classes with the same lower bound keep the
    order of the input, and the first of them is the median class. *)
Lemma synthetic_median_order_dependent :
  Permutation tied_classes (rev tied_classes)
  /\ synthetic_median_from_classes tied_classes
     <> synthetic_median_from_classes (rev tied_classes).
Proof.
  split; [apply perm_swap|].
  destruct tied_classes_median as [-> ->]. intro H. qc_discriminate H.
Qed.

(* ------------------------------------------------------------------ *)
(** ** Parsed numbers are not negative *)

Lemma Qc_nonneg_mult (a b : Qc) : (0 <= a)%Qc -> (0 <= b)%Qc -> (0 <= a * b)%Qc.
Proof.
  unfold Qcle. change (this 0%Qc) with 0%Q. intros Ha Hb.
  rewrite this_mult. apply Qmult_le_0_compat; assumption.
Qed.

Lemma Qc_nonneg_div (a b : Qc) : (0 <= a)%Qc -> (0 <= b)%Qc -> (0 <= a / b)%Qc.
Proof.
  intros Ha Hb. unfold Qcdiv. apply Qc_nonneg_mult; [assumption|].
  unfold Qcle in *. change (this 0%Qc) with 0%Q in *.
  change (this (/ b)%Qc) with (Qred (/ this b)).
  rewrite Qred_correct. apply Qinv_le_0_compat. assumption.
Qed.

Lemma QcN_nonneg (n : N) : (0 <= QcN n)%Qc.
Proof.
  unfold Qcle, QcN. change (this 0%Qc) with 0%Q.
  change (this (Q2Qc (inject_Z (Z.of_N n))))
    with (Qred (inject_Z (Z.of_N n))).
  rewrite Qred_correct. unfold Qle. simpl. lia.
Qed.

Lemma py_float_nonneg (s : str) (v : Qc) : py_float s = Ok v -> (0 <= v)%Qc.
Proof.
  unfold py_float.
  destruct (Str.split1 46 s) as [[ip fp]|].
  - destruct (digits ip), (digits fp); try discriminate.
    intro H. injection H as <-.
    assert (0 <= QcN n0 / QcN (10 ^ N.of_nat (List.length fp)))%Qc as Hd
      by (apply Qc_nonneg_div; apply QcN_nonneg).
    pose proof (QcN_nonneg n) as Hn.
    replace 0%Qc with (0 + 0)%Qc by reflexivity.
    apply Qcplus_le_compat; assumption.
  - destruct (digits s); try discriminate.
    intro H. injection H as <-. apply QcN_nonneg.
Qed.

Lemma to_float_nonneg (s : str) (v : Qc) : to_float s = Ok v -> (0 <= v)%Qc.
Proof. apply py_float_nonneg. Qed.

Lemma eval_fraction_nonneg (s : str) (v : Qc) :
  eval_fraction s = Ok v -> (0 <= v)%Qc.
Proof.
  unfold eval_fraction.
  destruct (Str.contains (py "/") s); [|apply py_float_nonneg].
  destruct (Str.split1 47 s) as [[n d]|]; [|discriminate].
  destruct (py_float n) as [x|] eqn:En; [|discriminate].
  destruct (py_float d) as [y|] eqn:Ed; [|discriminate].
  simpl. unfold py_div. destruct (Qceqb y 0); [discriminate|].
  intro H. injection H as <-.
  apply Qc_nonneg_div; eapply py_float_nonneg; eassumption.
Qed.

(* ------------------------------------------------------------------ *)
(** ** Order of the returned bounds *)

Ltac goal_cases :=
  repeat match goal with
         | |- context [if ?c then _ else _] => destruct c eqn:?
         | |- context [match ?x with _ => _ end] => destruct x eqn:?
         end.

Ltac nonneg_facts :=
  repeat match goal with
         | E : eval_fraction _ = Ok _ |- _ =>
             apply eval_fraction_nonneg in E
         | E : to_float _ = Ok _ |- _ => apply to_float_nonneg in E
         end.

(** C4, as the code has it.  For a minimum wage that is not negative, the
    bounds come out ordered, except on a label that one of the two "mais de
    A a B" patterns matches with a first captured number that the parser
    reads above the second: the bounds are then those two numbers as read
    (times the minimum wage under the minimum-wage pattern), which the
    parser never compares. *)
Theorem parse_bounds_ordered (label : str) (sm lo hi : Qc) :
  (0 <= sm)%Qc ->
  parse_bounds_from_label label sm = Ok (Some lo, Some hi) ->
  (lo <= hi)%Qc
  \/ exists (m : caps) (a b : Qc),
       (b < a)%Qc
       /\ ((search re_mais_de_a_sm (Str.lower (Str.strip label)) = Some m
            /\ eval_fraction (group m 1) = Ok a
            /\ eval_fraction (group m 2) = Ok b
            /\ lo = (a * sm)%Qc /\ hi = (b * sm)%Qc)
           \/ (search re_mais_de_a (Str.lower (Str.strip label)) = Some m
               /\ to_float (group m 1) = Ok a
               /\ to_float (group m 2) = Ok b
               /\ lo = a /\ hi = b)).
Proof.
  intro Hsm.
  unfold parse_bounds_from_label, parse_bounds_norm, bind.
  goal_cases; intro H; inversion H; subst; clear H;
    try (left; nonneg_facts;
         first [ apply Qcle_refl
               | apply Qc_nonneg_mult; assumption
               | assumption ]; fail).
  all: match goal with
       | Ea : _ = Ok ?a, Eb : _ = Ok ?b
         |- (?lo <= ?hi)%Qc \/ _ =>
           lazymatch lo with
           | context [a] =>
               destruct (Qclt_le_dec b a) as [Hlt|Hle];
               [ right; eexists _, a, b; split; [exact Hlt|];
                 first [ left; repeat split; first [eassumption | reflexivity]
                       | right; repeat split;
                         first [eassumption | reflexivity] ]
               | left;
                 first [ exact Hle
                       | apply Qcmult_le_compat_r; assumption ] ]
           end
       end.
Qed.

Lemma parse_bounds_ordered_witness :
  (QcN 105 <= QcN 210)%Qc
  \/ exists (m : caps) (a b : Qc),
       (b < a)%Qc
       /\ ((search re_mais_de_a_sm
              (Str.lower (Str.strip (py "Mais de 105 a 210"))) = Some m
            /\ eval_fraction (group m 1) = Ok a
            /\ eval_fraction (group m 2) = Ok b
            /\ QcN 105 = (a * QcN 1212)%Qc /\ QcN 210 = (b * QcN 1212)%Qc)
           \/ (search re_mais_de_a
                 (Str.lower (Str.strip (py "Mais de 105 a 210"))) = Some m
               /\ to_float (group m 1) = Ok a
               /\ to_float (group m 2) = Ok b
               /\ QcN 105 = a /\ QcN 210 = b)).
Proof.
  apply (parse_bounds_ordered (py "Mais de 105 a 210") (QcN 1212)).
  - vm_compute. discriminate.
  - qc_compute.
Defined.

(** C4 as stated fails, in two ways.  A range whose first number reads
    above the second is returned as read: "Mais de 210 a 105" gives
    (210, 105), and so does a range written in increasing order of which
    the pattern captures one separator group only, "Mais de 500.000 a
    1.000.000", read as (500000, 1000).  And a negative minimum wage turns
    the upper bound of an "até" label below its lower bound 0. *)
Lemma parse_bounds_unordered :
  (parse_bounds_from_label (py "Mais de 210 a 105") (QcN 1212)
   = Ok (Some (QcN 210), Some (QcN 105))
   /\ ~ (QcN 210 <= QcN 105)%Qc)
  /\ (parse_bounds_from_label (py "Mais de 500.000 a 1.000.000") (QcN 1212)
      = Ok (Some (QcN 500000), Some (QcN 1000))
      /\ ~ (QcN 500000 <= QcN 1000)%Qc)
  /\ (parse_bounds_from_label (py "At" ++ [e_acute] ++ py " 1 SM") (qz (-1212))
      = Ok (Some (qz 0), Some (qz (-1212)))
      /\ ~ (qz 0 <= qz (-1212))%Qc).
Proof.
  repeat split; try qc_compute;
    intro H; vm_compute in H; apply H; reflexivity.
Qed.

(* ------------------------------------------------------------------ *)
(** ** Minimum-wage labels scale with the minimum wage *)

(** C7.  On a label the parser recognises as minimum-wage denominated,
    multiplying the minimum wage by [k] multiplies both bounds by [k]; "até
    1/2 salário mínimo" gives (0, 500) at 1000 and (0, 606) at 1212, and a
    quantity written n/d is the ratio of n to d. *)
Theorem parse_scales_with_sm :
  (forall (label : str) (sm k : Qc) (b : bounds),
      sm_recognized label = true ->
      parse_bounds_from_label label sm = Ok b ->
      parse_bounds_from_label label (k * sm) = Ok (scale k b))
  /\ parse_bounds_from_label ate_meio_sm (qz 1000)
     = Ok (Some (qz 0), Some (qz 500))
  /\ parse_bounds_from_label ate_meio_sm (qz 1212)
     = Ok (Some (qz 0), Some (qz 606))
  /\ eval_fraction (py "1/2") = Ok (qz 1 / qz 2)%Qc.
Proof.
  split; [|repeat split; qc_compute].
  intros label sm k b.
  unfold sm_recognized, matches, parse_bounds_from_label, parse_bounds_norm,
    bind.
  goal_cases; simpl; try discriminate; intros _ H; inversion H; subst;
    unfold scale; simpl;
    repeat match goal with
           | |- Ok _ = Ok _ => apply f_equal
           | |- (_, _) = (_, _) => apply f_equal2
           | |- Some _ = Some _ => apply f_equal
           end;
    try reflexivity; ring.
Qed.

Lemma parse_scales_with_sm_witness :
  parse_bounds_from_label (py "Mais de 1/2 a 1 SM") (qz 2 * qz 1212)
  = Ok (scale (qz 2) (Some (qz 606), Some (qz 1212))).
Proof.
  apply (proj1 parse_scales_with_sm (py "Mais de 1/2 a 1 SM") (qz 1212) (qz 2)).
  - vm_compute. reflexivity.
  - qc_compute.
Defined.

(* ------------------------------------------------------------------ *)
(** ** Accents *)

(** C8 fails on the code.  With its accents, "Até 1/2 salário mínimo" is
    read as half a minimum wage; without them, "ate 1/2 salario minimo"
    misses the minimum-wage pattern, which asks for "até", and is read by
    the currency pattern as the amount 1. *)
Theorem parse_accent_sensitive :
  parse_bounds_from_label
    (py "At" ++ [e_acute] ++ py " 1/2 sal" ++ [a_acute] ++ py "rio m"
     ++ [i_acute] ++ py "nimo") (qz 1212)
  = Ok (Some (qz 0), Some (qz 606))
  /\ parse_bounds_from_label (py "ate 1/2 salario minimo") (qz 1212)
     = Ok (Some (qz 0), Some (qz 1))
  /\ search re_ate_sm (py "ate 1/2 salario minimo") = None
  /\ search re_ate (py "ate 1/2 salario minimo") = Some [(1%nat, py "1")].
Proof. repeat split; qc_compute. Qed.

(* ------------------------------------------------------------------ *)
(** ** One median per unit that has a readable class *)

Lemma Str_eqb_eq (s t : str) : Str.eqb s t = true <-> s = t.
Proof.
  revert t. induction s as [|c s IH]; intros [|d t]; simpl;
    try (split; congruence).
  rewrite andb_true_iff, N.eqb_eq, IH. split.
  - intros [-> ->]. reflexivity.
  - intro H. injection H as -> ->. auto.
Qed.

Lemma insert_key_In (x k : str) (l : list str) :
  In x (insert_key k l) <-> x = k \/ In x l.
Proof.
  induction l as [|y l IH]; simpl.
  - intuition.
  - destruct (Str.eqb k y) eqn:E.
    + apply Str_eqb_eq in E. subst y. simpl. intuition.
    + destruct (str_ltb k y); simpl; rewrite ?IH; intuition.
Qed.

Lemma group_keys_In (k : str) (rows : list row) :
  In k (group_keys rows) <-> In k (map cd_mun rows).
Proof.
  induction rows as [|r rows IH]; simpl; [tauto|].
  rewrite insert_key_In, IH. intuition.
Qed.

Lemma group_rows_In (r : row) (k : str) (rows : list row) :
  In r (group_rows k rows) <-> In r rows /\ cd_mun r = k.
Proof.
  unfold group_rows. rewrite filter_In, Str_eqb_eq. tauto.
Qed.

Lemma build_classes_nonempty (g : list row) (sm : Qc) :
  forall classes,
    build_classes g sm = Ok classes ->
    (classes <> [] <-> exists r, In r g /\ parseable r sm = true).
Proof.
  induction g as [|r g IH]; simpl; intros classes H.
  - injection H as <-. split; [congruence|]. intros (r & [] & _).
  - unfold parseable in *. unfold bind in H.
    destruct (parse_bounds_from_label (categoria r) sm) as [[a b]|e] eqn:Ep;
      [|discriminate].
    destruct a as [a|], b as [b|];
      try (destruct (build_classes g sm) as [rest|] eqn:Eb; [|discriminate];
           injection H as <-;
           split; [intros _; exists r; rewrite Ep; auto | discriminate]).
    rewrite (IH _ H). split.
    + intros (r0 & Hin & Hp). exists r0. auto.
    + intros (r0 & [<-|Hin] & Hp).
      * rewrite Ep in Hp. discriminate.
      * exists r0. auto.
Qed.

Lemma sum_freq_insert (x : class) (l : list class) :
  sum_freq (insert x l) = sum_freq (x :: l).
Proof.
  induction l as [|y l IH]; [reflexivity|].
  simpl. destruct (key_ltb (c_min y) (c_min x)); [|reflexivity].
  simpl. rewrite IH. simpl.
  destruct (c_freq x), (c_freq y); try reflexivity. ring.
Qed.

Lemma sum_freq_sorted (l : list class) : sum_freq (sorted l) = sum_freq l.
Proof.
  induction l as [|x l IH]; [reflexivity|].
  simpl. rewrite sum_freq_insert. simpl. rewrite IH. reflexivity.
Qed.

Lemma synthetic_median_nan (classes : list class) :
  (sum_freq classes <= 0)%Qc ->
  synthetic_median_from_classes classes = Ok NaN.
Proof.
  intro H. unfold synthetic_median_from_classes.
  rewrite sum_freq_sorted. apply Qcleb_le in H. rewrite H. reflexivity.
Qed.

Lemma medians_builds (keys : list str) (rows : list row) (sm : Qc) :
  forall out,
    medians keys rows sm = Ok out ->
    forall u, In u keys ->
              exists classes, build_classes (group_rows u rows) sm = Ok classes.
Proof.
  induction keys as [|k keys IH]; simpl; intros out H u Hin; [destruct Hin|].
  unfold bind in H.
  destruct (build_classes (group_rows k rows) sm) as [classes|] eqn:Eb;
    [|discriminate].
  destruct Hin as [<-|Hin]; [eauto|].
  destruct classes as [|c classes]; [eauto|].
  destruct (synthetic_median_from_classes (c :: classes)); [|discriminate].
  destruct (medians keys rows sm) as [rest|]; [|discriminate].
  eapply IH; eauto.
Qed.

Lemma medians_entries (keys : list str) (rows : list row) (sm : Qc) :
  forall out,
    medians keys rows sm = Ok out ->
    forall u m,
      In (u, m) out <->
      In u keys
      /\ exists classes,
          build_classes (group_rows u rows) sm = Ok classes
          /\ classes <> []
          /\ synthetic_median_from_classes classes = Ok m.
Proof.
  induction keys as [|k keys IH]; simpl; intros out H u m.
  - injection H as <-. simpl. tauto.
  - unfold bind in H.
    destruct (build_classes (group_rows k rows) sm) as [classes|] eqn:Eb;
      [|discriminate].
    destruct classes as [|c classes].
    + rewrite (IH _ H). split.
      * intros [Hin Hex]. auto.
      * intros [[<-|Hin] (cl & Hb & Hne & Hm)]; [|eauto].
        rewrite Eb in Hb. injection Hb as <-. congruence.
    + destruct (synthetic_median_from_classes (c :: classes)) as [med|] eqn:Em;
        [|discriminate].
      destruct (medians keys rows sm) as [rest|] eqn:Er; [|discriminate].
      injection H as <-. simpl. rewrite (IH _ eq_refl). split.
      * intros [E|[Hin Hex]]; [|auto].
        injection E as <- <-. split; [auto|].
        exists (c :: classes). repeat split; [assumption|discriminate|assumption].
      * intros [[<-|Hin] (cl & Hb & Hne & Hm)]; [|right; eauto].
        rewrite Eb in Hb. injection Hb as <-. left. congruence.
Qed.

(** C6, as the code has it.  A run that completes emits a median for
    exactly the units with at least one readable class label; the median of
    such a unit is the estimator on its classes, hence NaN when their total
    frequency is not positive; and the estimator returns NaN whenever the
    total frequency is not positive. *)
Theorem medians_per_unit (rows : list row) (sm : Qc)
        (out : list (str * pyfloat)) :
  compute_median_from_csv rows sm = Ok out ->
  (forall u,
      In u (map fst out) <->
      exists r, In r rows /\ cd_mun r = u /\ parseable r sm = true)
  /\ (forall u m,
        In (u, m) out ->
        exists classes,
          build_classes (group_rows u rows) sm = Ok classes
          /\ synthetic_median_from_classes classes = Ok m
          /\ ((sum_freq classes <= 0)%Qc -> m = NaN))
  /\ (forall classes,
        (sum_freq classes <= 0)%Qc ->
        synthetic_median_from_classes classes = Ok NaN).
Proof.
  unfold compute_median_from_csv. intro H.
  pose proof (medians_entries _ _ _ _ H) as Hent.
  split; [|split].
  - intro u. rewrite in_map_iff. split.
    + intros ([u' m] & <- & Hin). simpl.
      apply Hent in Hin. destruct Hin as (_ & cl & Hb & Hne & _).
      apply (build_classes_nonempty _ _ _ Hb) in Hne.
      destruct Hne as (r & Hr & Hp). apply group_rows_In in Hr.
      exists r. tauto.
    + intros (r & Hr & Hu & Hp).
      assert (In u (group_keys rows)) as Hk.
      { apply group_keys_In. subst u. apply in_map. assumption. }
      destruct (medians_builds _ _ _ _ H u Hk) as [cl Hb].
      destruct (synthetic_median_ok cl) as [m Hm].
      exists (u, m). split; [reflexivity|].
      apply Hent. split; [assumption|].
      exists cl. repeat split; try assumption.
      apply (build_classes_nonempty _ _ _ Hb).
      exists r. split; [|assumption]. apply group_rows_In. auto.
  - intros u m Hin. apply Hent in Hin.
    destruct Hin as (_ & cl & Hb & _ & Hm).
    exists cl. repeat split; try assumption.
    intro Hs. rewrite (synthetic_median_nan _ Hs) in Hm. congruence.
  - exact synthetic_median_nan.
Qed.

Lemma medians_per_unit_witness :
  (forall u,
      In u (map fst [(py "2304400", NaN); (py "3550308", Fin (qz 400 / qz 3))])
      <-> exists r, In r mixed_rows /\ cd_mun r = u
                    /\ parseable r (qz 1212) = true)
  /\ (forall u m,
        In (u, m) [(py "2304400", NaN); (py "3550308", Fin (qz 400 / qz 3))] ->
        exists classes,
          build_classes (group_rows u mixed_rows) (qz 1212) = Ok classes
          /\ synthetic_median_from_classes classes = Ok m
          /\ ((sum_freq classes <= 0)%Qc -> m = NaN))
  /\ (forall classes,
        (sum_freq classes <= 0)%Qc ->
        synthetic_median_from_classes classes = Ok NaN).
Proof.
  apply (medians_per_unit mixed_rows (qz 1212)). qc_compute.
Defined.

(** C6 as stated fails: a unit whose labels are all unreadable gets no
    entry at all. *)
Lemma unreadable_unit_skipped :
  In (py "3550308") (map cd_mun unreadable_rows)
  /\ compute_median_from_csv unreadable_rows (qz 1212) = Ok [].
Proof. split; [left; reflexivity | qc_compute]. Qed.

(* ------------------------------------------------------------------ *)
(** ** [load_census.py]: which join the script applies *)

Module CensusFacts.

Import Census.
#[local] Open Scope nat_scope.

Section Mode.

Variable L : list nat.

Lemma step_choice (b x : nat) :
  (mode_step L b x = b \/ mode_step L b x = x)
  /\ at_least_as_good L (mode_step L b x) b
  /\ at_least_as_good L (mode_step L b x) x.
Proof.
  unfold mode_step, at_least_as_good.
  destruct (Nat.ltb_spec (count b L) (count x L));
    destruct (Nat.eqb_spec (count x L) (count b L));
    destruct (Nat.ltb_spec x b); simpl; lia.
Qed.

Lemma pref_trans (a b c : nat) :
  at_least_as_good L a b -> at_least_as_good L b c -> at_least_as_good L a c.
Proof. unfold at_least_as_good. lia. Qed.

Lemma fold_step (l : list nat) :
  forall b,
    let r := fold_left (mode_step L) l b in
    (r = b \/ In r l)
    /\ at_least_as_good L r b
    /\ forall x, In x l -> at_least_as_good L r x.
Proof.
  induction l as [|x l IH]; intro b; simpl.
  - repeat split; [auto | unfold at_least_as_good; lia | tauto].
  - destruct (IH (mode_step L b x)) as (Hin & Hb & Hall).
    destruct (step_choice b x) as (Hc & Hpb & Hpx).
    repeat split.
    + destruct Hin as [->|Hin]; [|auto].
      destruct Hc as [->| ->]; auto.
    + eapply pref_trans; eassumption.
    + intros y [<-|Hy]; [|auto]. eapply pref_trans; eassumption.
Qed.

End Mode.

Lemma mode_of_is_mode (l : list nat) : l <> [] -> is_mode l (mode_of l).
Proof.
  destruct l as [|a l]; [congruence|]. intros _.
  unfold mode_of. cbn [hd].
  destruct (fold_step (a :: l) (a :: l) a) as (Hin & Hb & Hall).
  split.
  - destruct Hin as [->|Hin]; [left; reflexivity | exact Hin].
  - intros x Hx. specialize (Hall x Hx).
    unfold at_least_as_good in Hall. lia.
Qed.

Lemma is_mode_unique (l : list nat) (m m' : nat) :
  is_mode l m -> is_mode l m' -> m = m'.
Proof.
  intros [Hin H] [Hin' H'].
  destruct (H m' Hin') as [Hc Hle], (H' m Hin) as [Hc' Hle']. lia.
Qed.

Lemma id_len_mode (df : frame) (m : nat) :
  df <> [] -> is_mode (lengths df) m -> id_len df = m.
Proof.
  intros Hne Hm. destruct df as [|r df]; [congruence|].
  unfold id_len. symmetry. apply (is_mode_unique _ _ _ Hm).
  apply mode_of_is_mode. discriminate.
Qed.

(** The truncated mean is at least 13 exactly when the lengths add up to
    at least 13 per code. *)
Lemma avg_len_ge (df : frame) :
  df <> [] ->
  (13 <= avg_len df <-> 13 * List.length df <= list_sum (lengths df)).
Proof.
  intro Hne. destruct df as [|r df]; [congruence|].
  unfold avg_len. remember (r :: df) as d.
  assert (List.length d <> 0) as Hn by (subst d; simpl; lia).
  split.
  - intro H. rewrite Nat.mul_comm.
    eapply Nat.le_trans; [apply Nat.mul_le_mono_l, H|].
    apply Nat.Div0.mul_div_le.
  - intro H. apply Nat.div_le_lower_bound; lia.
Qed.

Lemma preferred_not_vl_renda (c : str) :
  In c preferred_order -> Str.eqb (Str.lower vl_renda) c = false.
Proof.
  intro H. repeat (destruct H as [<-|H]; [reflexivity|]). destruct H.
Qed.

Lemma join_column_added (pref columns : list str) :
  (forall c, In c pref -> Str.eqb (Str.lower vl_renda) c = false) ->
  join_column pref (columns ++ [vl_renda]) = join_column pref columns.
Proof.
  induction pref as [|c pref IH]; intro H; [reflexivity|].
  simpl. unfold name_map_get at 1. rewrite rev_app_distr.
  cbn [rev app find]. rewrite (H c (or_introl eq_refl)).
  fold (name_map_get columns c).
  rewrite IH by (intros; apply H; right; assumption). reflexivity.
Qed.

Lemma update_column_added (cfg : config) (columns : list str)
      (ops : list db_op) :
  update_column (fst (ensure_column cfg columns) ++ ops) = update_column ops.
Proof. unfold ensure_column. destruct existsb; reflexivity. Qed.

(** C1, as the code has it.  On a non-empty frame the script takes the
    sector path, joining on the sector column of the target table, exactly
    when the truncated mean of the code lengths is at least 13; below that
    it goes by the mode of the lengths: 7 joins on CD_MUN, 2 on CD_UF, and
    any other mode, 13 and more included, applies no update. *)
Theorem granularity_dispatch (cfg : config) (columns : list str)
        (df : frame) (m : nat) :
  df <> [] ->
  is_mode (lengths df) m ->
  (13 <= avg_len df ->
   update_column (fst (run cfg columns df))
   = join_column preferred_order columns)
  /\ (avg_len df < 13 ->
      (m = 7 ->
       update_column (fst (run cfg columns df)) = Some (py "CD_MUN"))
      /\ (m = 2 ->
          update_column (fst (run cfg columns df)) = Some (py "CD_UF"))
      /\ (m <> 7 -> m <> 2 ->
          update_column (fst (run cfg columns df)) = None)).
Proof.
  intros Hne Hm. pose proof (id_len_mode df m Hne Hm) as Hid.
  unfold run. split.
  - intro H. apply Nat.ltb_ge in H. rewrite H.
    assert (join_column preferred_order (snd (ensure_column cfg columns))
            = join_column preferred_order columns) as Hj.
    { unfold ensure_column. destruct existsb; [reflexivity|].
      apply join_column_added, preferred_not_vl_renda. }
    destruct (ensure_column cfg columns) as [added columns'] eqn:Ee.
    cbn [snd] in Hj. rewrite Hj.
    destruct (join_column preferred_order columns) as [jc|]; [|reflexivity].
    cbn [fst].
    replace added with (fst (ensure_column cfg columns)) by (rewrite Ee; reflexivity).
    rewrite update_column_added. reflexivity.
  - intro H. apply Nat.ltb_lt in H. rewrite H. cbn [fst].
    rewrite update_column_added, Hid.
    repeat split.
    + intros ->. reflexivity.
    + intros ->. reflexivity.
    + intros H7 H2.
      apply Nat.eqb_neq in H7, H2. rewrite H7, H2. reflexivity.
Qed.

Lemma granularity_dispatch_witness :
  update_column (fst (run sp_config sp_columns municipal_frame))
  = Some (py "CD_MUN").
Proof.
  refine (proj1 (proj2 (granularity_dispatch sp_config sp_columns
                          municipal_frame 7 _ _) _) eq_refl).
  - discriminate.
  - exact (mode_of_is_mode (lengths municipal_frame) ltac:(discriminate)).
  - vm_compute. lia.
Defined.

(** C1 as stated fails: the most frequent length is 15, the mean is 10,
    and the script applies no update although the table has a sector
    column. *)
Lemma modal_sector_not_applied :
  stray_frame <> []
  /\ is_mode (lengths stray_frame) 15
  /\ join_column preferred_order sp_columns = Some (py "CD_SETOR")
  /\ update_column (fst (run sp_config sp_columns stray_frame)) = None.
Proof.
  split; [discriminate|]. split; [|split; reflexivity].
  exact (mode_of_is_mode (lengths stray_frame) ltac:(discriminate)).
Qed.

(* ------------------------------------------------------------------ *)
(** ** [load_census.py]: when the staging table is written *)

Lemma writes_table_app (tbl : str) (l1 l2 : list db_op) :
  writes_table tbl (l1 ++ l2) = writes_table tbl l1 || writes_table tbl l2.
Proof. unfold writes_table. apply existsb_app. Qed.

Lemma ensure_column_no_write (cfg : config) (columns : list str) (tbl : str) :
  writes_table tbl (fst (ensure_column cfg columns)) = false.
Proof. unfold ensure_column. destruct existsb; reflexivity. Qed.

(** C5, as the code has it.  Below a truncated mean length of 13 the frame
    is written to the staging table whether or not an update was applied;
    on the sector path the script writes only [temp_renda], so a staging
    table of another name is not written. *)
Theorem staging_written (cfg : config) (columns : list str) (df : frame) :
  (avg_len df < 13 ->
   In (ToSql (staging_table cfg) [py "id_localidade"; py "valor"] df)
      (fst (run cfg columns df)))
  /\ (13 <= avg_len df ->
      staging_table cfg <> py "temp_renda" ->
      writes_table (staging_table cfg) (fst (run cfg columns df)) = false).
Proof.
  unfold run. split.
  - intro H. apply Nat.ltb_lt in H. rewrite H. cbn [fst].
    rewrite !in_app_iff. right. right. left. reflexivity.
  - intros H Hname. apply Nat.ltb_ge in H. rewrite H.
    pose proof (ensure_column_no_write cfg columns (staging_table cfg)) as He.
    destruct (ensure_column cfg columns) as [added columns'].
    cbn [fst] in He.
    destruct (join_column preferred_order columns'); [|reflexivity].
    cbn [fst]. rewrite writes_table_app, He.
    unfold writes_table. cbn [existsb orb].
    destruct (Str.eqb (py "temp_renda") (staging_table cfg)) eqn:E;
      [|reflexivity].
    apply Str_eqb_eq in E. congruence.
Qed.

Lemma staging_written_witness :
  In (ToSql (staging_table sp_config) [py "id_localidade"; py "valor"]
        stray_frame)
     (fst (run sp_config sp_columns stray_frame))
  /\ writes_table (staging_table sp_config)
       (fst (run sp_config sp_columns sector_frame)) = false.
Proof.
  split.
  - apply (proj1 (staging_written sp_config sp_columns stray_frame)).
    vm_compute. lia.
  - apply (proj2 (staging_written sp_config sp_columns sector_frame)).
    + vm_compute. lia.
    + discriminate.
Defined.

(** C5 as stated fails: on sector codes the update is applied and the
    staging table is not written. *)
Lemma sector_run_not_staged :
  sector_frame <> []
  /\ update_column (fst (run sp_config sp_columns sector_frame))
     = Some (py "CD_SETOR")
  /\ writes_table (staging_table sp_config)
       (fst (run sp_config sp_columns sector_frame)) = false.
Proof. split; [discriminate|]. split; reflexivity. Qed.

End CensusFacts.

(* ================================================================== *)
(** * Further properties of the estimator *)

Lemma this_div (x y : Qc) : (this (x / y)%Qc == this x / this y)%Q.
Proof.
  unfold Qcdiv, Qcmult, Qcinv, Q2Qc, this. rewrite !Qred_correct. reflexivity.
Qed.

(** A walk that ends without returning has stayed below the target. *)
Lemma walk_none_below (target : Qc) (classes : list class) :
  forall cum_prev,
    (cum_prev < target)%Qc ->
    walk target cum_prev classes = None ->
    (cum_prev + sum_freq classes < target)%Qc.
Proof.
  induction classes as [|[[a b] f] rest IH]; intros c Hc H; simpl in *.
  - qc_lra.
  - unfold c_freq. cbn [snd].
    destruct f as [f|]; [|auto].
    destruct (Qceqb f 0) eqn:Ef.
    + apply Qceqb_eq in Ef. subst f. specialize (IH c Hc H). qc_lra.
    + destruct (Qcleb target (c + f)) eqn:El.
      * destruct b as [b|]; [destruct (Qcleb b (or_zero a))|]; discriminate.
      * apply Qcleb_gt in El. specialize (IH (c + f)%Qc El H). qc_lra.
Qed.

Lemma walk_found (classes : list class) :
  (0 < sum_freq classes)%Qc ->
  exists r, walk (Q2Qc (1 # 2) * sum_freq classes) 0 classes = Some r.
Proof.
  intro Hpos.
  destruct (walk _ _ classes) as [r|] eqn:Ew; [eauto|].
  apply walk_none_below in Ew; [|qc_lra]. exfalso. qc_lra.
Qed.

(** X1.  The fallback after the loop is never taken: when the total is
    positive the walk itself returns the median, and otherwise the
    estimator has already returned NaN. *)
Theorem fallback_unreachable (classes : list class) :
  walk (Q2Qc (1 # 2) * sum_freq (sorted classes)) 0 (sorted classes) = None ->
  (sum_freq classes <= 0)%Qc
  /\ synthetic_median_from_classes classes = Ok NaN.
Proof.
  intro Hw.
  destruct (Qclt_le_dec 0 (sum_freq classes)) as [Hpos|Hle].
  - rewrite <- sum_freq_sorted in Hpos.
    destruct (walk_found _ Hpos) as [r Hr]. congruence.
  - split; [assumption | apply synthetic_median_nan; assumption].
Qed.

Lemma fallback_unreachable_witness :
  (sum_freq [(Some (qz 0), Some (qz 100), Some (qz 0))] <= 0)%Qc
  /\ synthetic_median_from_classes
       [(Some (qz 0), Some (qz 100), Some (qz 0))] = Ok NaN.
Proof.
  apply (fallback_unreachable [(Some (qz 0), Some (qz 100), Some (qz 0))]).
  reflexivity.
Defined.

Lemma insert_In (c x : class) (l : list class) :
  In c (insert x l) <-> c = x \/ In c l.
Proof.
  induction l as [|y l IH]; simpl; [intuition|].
  destruct (key_ltb (c_min y) (c_min x)); simpl; rewrite ?IH; intuition.
Qed.

Lemma sorted_In (c : class) (l : list class) : In c (sorted l) <-> In c l.
Proof.
  induction l as [|x l IH]; simpl; [tauto|].
  rewrite insert_In, IH. intuition.
Qed.

(** Inside the median class the interpolated value stays between the two
    bounds. *)
Lemma interpolation_bounds (L u target cum f : Qc) :
  (cum < target)%Qc -> (target <= cum + f)%Qc -> (0 < f)%Qc -> (L < u)%Qc ->
  (L <= L + (target - cum) / f * (u - L) /\
   L + (target - cum) / f * (u - L) <= u)%Qc.
Proof.
  unfold Qcle, Qclt. intros Hc Ht Hf Hu.
  rewrite ?this_plus, ?this_mult, ?this_div, ?this_minus in *.
  change (this 0%Qc) with 0%Q in *.
  assert (0 <= (this target - this cum) / this f <= 1)%Q as [H0 H1].
  { split; [apply Qle_shift_div_l | apply Qle_shift_div_r]; lra. }
  split; nra.
Qed.

Lemma walk_in_class (target : Qc) (classes : list class) :
  (forall c f, In c classes -> c_freq c = Some f -> (0 <= f)%Qc) ->
  forall cum_prev v,
    (cum_prev < target)%Qc ->
    walk target cum_prev classes = Some (Ok (Fin v)) ->
    exists c,
      In c classes
      /\ (or_zero (c_min c) <= v)%Qc
      /\ (v = or_zero (c_min c)
          \/ exists u, c_max c = Some u /\ (v <= u)%Qc).
Proof.
  induction classes as [|[[a b] f] rest IH]; intros Hf c v Hc H; simpl in H.
  - discriminate.
  - assert (forall c', (c' < target)%Qc ->
                       walk target c' rest = Some (Ok (Fin v)) ->
                       exists x,
                         In x ((a, b, f) :: rest)
                         /\ (or_zero (c_min x) <= v)%Qc
                         /\ (v = or_zero (c_min x)
                             \/ exists u, c_max x = Some u /\ (v <= u)%Qc))
      as Hrest.
    { intros c' Hc' Hw.
      destruct (IH (fun x g Hx => Hf x g (or_intror Hx)) c' v Hc' Hw)
        as (x & Hx & Hb).
      exists x. split; [right; assumption | assumption]. }
    destruct f as [f|]; [|apply (Hrest c Hc H)].
    destruct (Qceqb f 0) eqn:Ef; [apply (Hrest c Hc H)|].
    destruct (Qcleb target (c + f)) eqn:El.
    + exists (a, b, Some f). split; [left; reflexivity|]. cbn [c_min c_max fst snd].
      destruct b as [b|].
      * destruct (Qcleb b (or_zero a)) eqn:Eb.
        -- injection H as <-. split; [apply Qcle_refl | left; reflexivity].
        -- rewrite (py_div_ok _ _ Ef) in H. simpl in H. injection H as <-.
           apply Qcleb_le in El. apply Qcleb_gt in Eb.
           assert (0 < f)%Qc as Hfpos.
           { assert (0 <= f)%Qc as H0
                 by exact (Hf _ f (or_introl eq_refl) eq_refl).
             apply Qceqb_neq in Ef.
             destruct (Qcle_lt_or_eq _ _ H0) as [?|E]; [assumption|].
             congruence. }
           destruct (interpolation_bounds (or_zero a) b target c f
                       Hc El Hfpos Eb) as [Hlo Hhi].
           split; [assumption|]. right. exists b. split; [reflexivity|assumption].
      * injection H as <-. split; [apply Qcle_refl | left; reflexivity].
    + apply Qcleb_gt in El. apply (Hrest (c + f)%Qc El H).
Qed.

(** X2.  With frequencies that are not negative, a numeric median lies in
    the interval of one of the classes supplied: at or above its lower
    bound (0 for a missing one) and, unless it is that lower bound itself,
    at or below its upper bound. *)
Theorem median_within_class (classes : list class) (v : Qc) :
  (forall c f, In c classes -> c_freq c = Some f -> (0 <= f)%Qc) ->
  synthetic_median_from_classes classes = Ok (Fin v) ->
  exists c,
    In c classes
    /\ (or_zero (c_min c) <= v)%Qc
    /\ (v = or_zero (c_min c) \/ exists u, c_max c = Some u /\ (v <= u)%Qc).
Proof.
  intros Hf. unfold synthetic_median_from_classes.
  destruct (Qcleb (sum_freq (sorted classes)) 0) eqn:Et; [discriminate|].
  apply Qcleb_gt in Et.
  destruct (walk_found _ Et) as [r Hr]. rewrite Hr. intros ->.
  apply walk_in_class in Hr.
  - destruct Hr as (c & Hin & Hb). exists c.
    split; [apply sorted_In; assumption | assumption].
  - intros c f Hin. apply Hf. apply sorted_In. assumption.
  - qc_lra.
Qed.

Lemma median_within_class_witness :
  exists c,
    In c example_classes
    /\ (or_zero (c_min c) <= qz 150)%Qc
    /\ (qz 150 = or_zero (c_min c)
        \/ exists u, c_max c = Some u /\ (qz 150 <= u)%Qc).
Proof.
  apply (median_within_class example_classes (qz 150)).
  - intros c f [<-|[<-|[<-|[]]]] E; injection E as <-; vm_compute; discriminate.
  - qc_compute.
Defined.

(* ------------------------------------------------------------------ *)
(** ** Counts or percentages: only the ratios matter *)

Lemma Qcleb_scale (k x y : Qc) :
  (0 < k)%Qc -> Qcleb (k * x) (k * y) = Qcleb x y.
Proof.
  intro Hk.
  destruct (Qcleb x y) eqn:E.
  - apply Qcleb_le in E. apply Qcleb_le.
    rewrite (Qcmult_comm k x), (Qcmult_comm k y).
    apply Qcmult_le_compat_r; [assumption | apply Qclt_le_weak; assumption].
  - apply Qcleb_gt in E. apply Qcleb_gt.
    rewrite (Qcmult_comm k x), (Qcmult_comm k y).
    apply Qcmult_lt_compat_r; assumption.
Qed.

Lemma Qceqb_scale (k x : Qc) :
  (0 < k)%Qc -> Qceqb (k * x) 0 = Qceqb x 0.
Proof.
  intro Hk.
  assert (k <> 0%Qc) as Hk0
      by (intro E; apply (Qclt_not_eq _ _ Hk); symmetry; exact E).
  destruct (Qceqb x 0) eqn:E.
  - apply Qceqb_eq in E. subst x. apply Qceqb_eq. ring.
  - apply Qceqb_neq in E. apply Qceqb_neq. intro H.
    destruct (Qcmult_integral _ _ H); contradiction.
Qed.

Lemma insert_scale (k : Qc) (x : class) (l : list class) :
  insert (scale_freq k x) (map (scale_freq k) l)
  = map (scale_freq k) (insert x l).
Proof.
  induction l as [|y l IH]; [reflexivity|].
  simpl. change (c_min (scale_freq k y)) with (c_min y).
  change (c_min (scale_freq k x)) with (c_min x).
  destruct (key_ltb (c_min y) (c_min x)); simpl; [rewrite IH|]; reflexivity.
Qed.

Lemma sorted_scale (k : Qc) (l : list class) :
  sorted (map (scale_freq k) l) = map (scale_freq k) (sorted l).
Proof.
  induction l as [|x l IH]; [reflexivity|].
  simpl. rewrite IH. apply insert_scale.
Qed.

Lemma sum_freq_scale (k : Qc) (l : list class) :
  sum_freq (map (scale_freq k) l) = (k * sum_freq l)%Qc.
Proof.
  induction l as [|[[a b] f] l IH]; simpl; [ring|].
  unfold c_freq in *. cbn [snd scale_freq option_map].
  destruct f as [f|]; simpl; rewrite IH; [ring | reflexivity].
Qed.

Lemma walk_scale (k : Qc) (classes : list class) :
  (0 < k)%Qc ->
  forall target cum_prev,
    walk (k * target) (k * cum_prev) (map (scale_freq k) classes)
    = walk target cum_prev classes.
Proof.
  intro Hk.
  assert (k <> 0%Qc) as Hk0
      by (intro E; apply (Qclt_not_eq _ _ Hk); symmetry; exact E).
  induction classes as [|[[a b] f] rest IH]; intros t c; [reflexivity|].
  cbn [map scale_freq c_min c_max c_freq fst snd option_map walk].
  destruct f as [f|]; cbn [option_map]; [|apply IH].
  rewrite (Qceqb_scale _ _ Hk).
  destruct (Qceqb f 0) eqn:Ef; [apply IH|].
  replace (k * c + k * f)%Qc with (k * (c + f))%Qc by ring.
  rewrite (Qcleb_scale _ _ _ Hk).
  destruct (Qcleb t (c + f)); [|apply IH].
  destruct b as [b|]; [|reflexivity].
  destruct (Qcleb b (or_zero a)); [reflexivity|].
  unfold py_div. rewrite (Qceqb_scale _ _ Hk), Ef. cbn [bind].
  apply Qceqb_neq in Ef.
  replace ((k * t - k * c) / (k * f))%Qc with ((t - c) / f)%Qc;
    [reflexivity|].
  field. split; assumption.
Qed.

(** X3.  Multiplying every frequency by the same positive factor leaves
    the median unchanged: counts and percentages of the same distribution
    give the same value. *)
Theorem median_scale_invariant (k : Qc) (classes : list class) :
  (0 < k)%Qc ->
  synthetic_median_from_classes (map (scale_freq k) classes)
  = synthetic_median_from_classes classes.
Proof.
  intro Hk. unfold synthetic_median_from_classes.
  rewrite sorted_scale, sum_freq_scale.
  replace (Qcleb (k * sum_freq (sorted classes)) 0)
    with (Qcleb (k * sum_freq (sorted classes)) (k * 0))
    by (f_equal; ring).
  rewrite (Qcleb_scale _ _ _ Hk).
  destruct (Qcleb (sum_freq (sorted classes)) 0); [reflexivity|].
  replace (Q2Qc (1 # 2) * (k * sum_freq (sorted classes)))%Qc
    with (k * (Q2Qc (1 # 2) * sum_freq (sorted classes)))%Qc by ring.
  replace (walk (k * (Q2Qc (1 # 2) * sum_freq (sorted classes))) 0)
    with (walk (k * (Q2Qc (1 # 2) * sum_freq (sorted classes))) (k * 0))
    by (f_equal; ring).
  rewrite (walk_scale _ _ Hk).
  destruct (walk _ _ (sorted classes)); [reflexivity|].
  rewrite <- map_rev.
  destruct (rev (sorted classes)) as [|[[a b] f] tl]; reflexivity.
Qed.

Lemma median_scale_invariant_witness :
  synthetic_median_from_classes (map (scale_freq (qz 5 / qz 2)) example_classes)
  = synthetic_median_from_classes example_classes.
Proof.
  apply median_scale_invariant. vm_compute. reflexivity.
Defined.

(* ------------------------------------------------------------------ *)
(** ** Classes without frequency do not count *)

Lemma key_ltb_below (kz ky kx : option Qc) :
  key_ltb kz kx = true -> key_ltb ky kx = false -> key_ltb kz ky = true.
Proof.
  destruct kz as [z|], ky as [y|], kx as [x|]; simpl; try congruence.
  rewrite Qcltb_lt. intros Hzx Hyx. apply Qcltb_lt.
  apply Qclt_le_trans with x; [assumption|].
  apply Qcnot_lt_le. intro H. apply Qcltb_lt in H. congruence.
Qed.

Lemma insert_ascend (x : class) (l : list class) :
  keys_ascend l -> keys_ascend (insert x l).
Proof.
  unfold keys_ascend. induction 1 as [|y l Hl IH Hy]; simpl.
  - constructor; constructor.
  - destruct (key_ltb (c_min y) (c_min x)) eqn:E.
    + constructor; [assumption|].
      apply Forall_forall. intros z Hz. apply insert_In in Hz.
      destruct Hz as [->|Hz].
      * apply key_ltb_asym. assumption.
      * rewrite Forall_forall in Hy. auto.
    + constructor; [constructor; assumption|].
      constructor; [assumption|].
      apply Forall_forall. intros z Hz. rewrite Forall_forall in Hy.
      destruct (key_ltb (c_min z) (c_min x)) eqn:Ez; [|reflexivity].
      specialize (Hy z Hz).
      rewrite (key_ltb_below _ _ _ Ez E) in Hy. discriminate.
Qed.

Lemma sorted_ascend (l : list class) : keys_ascend (sorted l).
Proof.
  induction l as [|x l IH]; simpl; [constructor | apply insert_ascend, IH].
Qed.

Lemma insert_front (x : class) (l : list class) :
  (forall z, In z l -> key_ltb (c_min z) (c_min x) = false) ->
  insert x l = x :: l.
Proof.
  destruct l as [|y l]; [reflexivity|]. intro H. simpl.
  rewrite (H y (or_introl eq_refl)). reflexivity.
Qed.

Lemma filter_insert (p : class -> bool) (x : class) (l : list class) :
  keys_ascend l ->
  filter p (insert x l)
  = if p x then insert x (filter p l) else filter p l.
Proof.
  unfold keys_ascend. induction 1 as [|y l Hl IH Hy]; simpl.
  - destruct (p x); reflexivity.
  - destruct (key_ltb (c_min y) (c_min x)) eqn:E; simpl.
    + rewrite IH. destruct (p y), (p x); simpl; rewrite ?E; reflexivity.
    + destruct (p x) eqn:Ex; [|reflexivity].
      symmetry. apply insert_front.
      intros z Hz.
      assert (In z (y :: l)) as Hz'.
      { destruct (p y); [destruct Hz as [<-|Hz]; [left; reflexivity|]|];
          right; apply filter_In in Hz; tauto. }
      destruct Hz' as [<-|Hz']; [assumption|].
      rewrite Forall_forall in Hy.
      destruct (key_ltb (c_min z) (c_min x)) eqn:Ez; [|reflexivity].
      specialize (Hy z Hz').
      rewrite (key_ltb_below _ _ _ Ez E) in Hy. discriminate.
Qed.

Lemma sorted_filter (p : class -> bool) (l : list class) :
  sorted (filter p l) = filter p (sorted l).
Proof.
  induction l as [|x l IH]; [reflexivity|].
  simpl. rewrite (filter_insert p x _ (sorted_ascend l)).
  destruct (p x); simpl; rewrite IH; reflexivity.
Qed.

Lemma sum_freq_live (l : list class) :
  sum_freq (filter live l) = sum_freq l.
Proof.
  induction l as [|x l IH]; [reflexivity|].
  cbn [filter sum_freq]. unfold live at 1.
  destruct (c_freq x) as [f|] eqn:Ef; [|assumption].
  destruct (Qceqb f 0) eqn:E; cbn [negb sum_freq].
  - apply Qceqb_eq in E. subst f. rewrite IH. ring.
  - rewrite Ef, IH. reflexivity.
Qed.

Lemma walk_live (target : Qc) (l : list class) :
  forall cum_prev,
    walk target cum_prev (filter live l) = walk target cum_prev l.
Proof.
  induction l as [|[[a b] f] l IH]; intro c; [reflexivity|].
  cbn [filter]. unfold live at 1. cbn [c_freq snd].
  destruct f as [f|]; [|apply IH].
  destruct (Qceqb f 0) eqn:E; cbn [negb walk]; rewrite E; [apply IH|].
  destruct (Qcleb target (c + f)); [reflexivity | apply IH].
Qed.

(** X4.  Classes whose frequency is [None] or 0 have no effect: the
    median of the list is the median of the list without them. *)
Theorem median_ignores_empty_classes (classes : list class) :
  synthetic_median_from_classes (filter live classes)
  = synthetic_median_from_classes classes.
Proof.
  unfold synthetic_median_from_classes.
  rewrite sorted_filter, sum_freq_live, walk_live.
  destruct (Qcleb (sum_freq (sorted classes)) 0) eqn:Et; [reflexivity|].
  apply Qcleb_gt in Et. destruct (walk_found _ Et) as [r ->]. reflexivity.
Qed.

(* ------------------------------------------------------------------ *)
(** ** Grouped-median interpolation *)

Lemma sum_freq_app (l1 l2 : list class) :
  sum_freq (l1 ++ l2) = (sum_freq l1 + sum_freq l2)%Qc.
Proof.
  induction l1 as [|c l1 IH]; simpl; [ring|].
  destruct (c_freq c); rewrite IH; ring.
Qed.

Lemma insert_perm (x : class) (l : list class) :
  Permutation (x :: l) (insert x l).
Proof.
  induction l as [|y l IH]; simpl; [reflexivity|].
  destruct (key_ltb (c_min y) (c_min x)); [|reflexivity].
  rewrite perm_swap. apply perm_skip, IH.
Qed.

Lemma sorted_perm (l : list class) : Permutation l (sorted l).
Proof.
  induction l as [|x l IH]; simpl; [constructor|].
  rewrite <- insert_perm. apply perm_skip, IH.
Qed.

(** The sort is stable: classes of equal key keep the order of the input. *)
Lemma sorted_same_key (k : option Qc) (l : list class) :
  (forall c, In c l -> c_min c = k) -> sorted l = l.
Proof.
  induction l as [|x l IH]; intro H; [reflexivity|].
  simpl. rewrite IH by (intros c Hc; apply H; right; exact Hc).
  apply insert_front. intros z Hz.
  rewrite (H z (or_intror Hz)), (H x (or_introl eq_refl)).
  destruct (key_ltb k k) eqn:E; [|reflexivity].
  rewrite (key_ltb_asym _ _ E) in E. discriminate.
Qed.

Lemma sorted_stable (k : option Qc) (l : list class) :
  filter (has_key k) (sorted l) = filter (has_key k) l.
Proof.
  rewrite <- sorted_filter. apply sorted_same_key with k.
  intros c Hc. apply filter_In in Hc. apply key_eqb_eq. tauto.
Qed.

(** Where the walk returns, and what: the class [(a, b, f)] it stops in is
    the first counted class at which the running frequency reaches the
    target, and the value is the lower bound, or the interpolation from it. *)
Lemma walk_median_class (target : Qc) (l : list class) :
  forall (c : Qc) (r : result pyfloat),
    (c < target)%Qc ->
    walk target c l = Some r ->
    exists pre a b f post,
      l = pre ++ (a, b, Some f) :: post
      /\ f <> 0%Qc
      /\ (forall pre1 x pre2,
             pre = pre1 ++ x :: pre2 -> live x = true ->
             (c + sum_freq (pre1 ++ [x]) < target)%Qc)
      /\ (c + sum_freq pre < target)%Qc
      /\ (target <= c + sum_freq pre + f)%Qc
      /\ r = Ok (Fin (match b with
                      | None => or_zero a
                      | Some u =>
                          if Qcleb u (or_zero a) then or_zero a
                          else or_zero a
                               + (target - (c + sum_freq pre)) / f
                                 * (u - or_zero a)
                      end)%Qc).
Proof.
  induction l as [|[[a b] f] rest IH]; intros c r Hc H; simpl in H.
  - discriminate.
  - destruct f as [f|].
    + destruct (Qceqb f 0) eqn:Ef.
      * apply Qceqb_eq in Ef. subst f.
        destruct (IH c r Hc H)
          as (pre & a' & b' & f' & post & -> & Hf & Hfirst & Hlo & Hhi & ->).
        exists ((a, b, Some 0%Qc) :: pre), a', b', f', post.
        cbn [sum_freq c_freq snd]. rewrite !Qcplus_0_l.
        repeat split; try assumption.
        intros [|y pre1] x pre2 E Hx; injection E as E1 E2.
        -- subst x. discriminate Hx.
        -- subst y pre. cbn [app sum_freq c_freq snd]. rewrite Qcplus_0_l.
           apply (Hfirst _ _ _ eq_refl Hx).
      * destruct (Qcleb target (c + f)) eqn:El.
        -- apply Qcleb_le in El.
           exists [], a, b, f, rest.
           cbn [sum_freq]. rewrite !Qcplus_0_r.
           repeat split; try assumption.
           ++ apply Qceqb_neq. assumption.
           ++ intros [|y pre1] x pre2 E; discriminate E.
           ++ destruct b as [u|]; [|congruence].
              destruct (Qcleb u (or_zero a)); [congruence|].
              rewrite (py_div_ok _ _ Ef) in H. cbn [bind] in H. congruence.
        -- apply Qcleb_gt in El.
           destruct (IH (c + f)%Qc r El H)
             as (pre & a' & b' & f' & post & -> & Hf & Hfirst & Hlo & Hhi & ->).
           exists ((a, b, Some f) :: pre), a', b', f', post.
           cbn [sum_freq c_freq snd]. rewrite !Qcplus_assoc.
           repeat split; try assumption.
           intros [|y pre1] x pre2 E Hx; injection E as E1 E2.
           ++ subst x. cbn [app sum_freq c_freq snd]. rewrite Qcplus_0_r.
              assumption.
           ++ subst y pre. cbn [app sum_freq c_freq snd].
              rewrite Qcplus_assoc. apply (Hfirst _ _ _ eq_refl Hx).
    + destruct (IH c r Hc H)
        as (pre & a' & b' & f' & post & -> & Hf & Hfirst & Hlo & Hhi & ->).
      exists ((a, b, None) :: pre), a', b', f', post.
      cbn [sum_freq c_freq snd].
      repeat split; try assumption.
      intros [|y pre1] x pre2 E Hx; injection E as E1 E2.
      * subst x. discriminate Hx.
      * subst y pre. cbn [app sum_freq c_freq snd].
        apply (Hfirst _ _ _ eq_refl Hx).
Qed.

(** C2.  The estimator is the grouped-median interpolation.  The two
    lists of the specification give 150 and 500.  In general the classes
    are put in a stable ascending order of their lower bounds, and for any
    list of positive total the median class [(a, b, f)] is the first class
    of that order, among those with a frequency that is neither [None]
    nor 0, at which the cumulative frequency reaches half of the total; the
    frequency [cum] before it is below that half.  The value returned is
    the lower bound [L] of the median class when its upper bound is null or
    not above [L], and [L + ((total/2 - cum) / f) * (b - L)] otherwise. *)
Theorem synthetic_median_interpolates :
  synthetic_median_from_classes example_classes = Ok (Fin (qz 150))
  /\ synthetic_median_from_classes [(Some (qz 500), None, Some (qz 5))]
     = Ok (Fin (qz 500))
  /\ (forall classes : list class,
         Permutation classes (sorted classes)
         /\ keys_ascend (sorted classes)
         /\ forall k, filter (has_key k) (sorted classes)
                      = filter (has_key k) classes)
  /\ (forall classes : list class,
         (0 < sum_freq classes)%Qc ->
         exists pre a b f post v,
           sorted classes = pre ++ (a, b, Some f) :: post
           /\ f <> 0%Qc
           /\ (forall pre1 x pre2,
                  pre = pre1 ++ x :: pre2 -> live x = true ->
                  (sum_freq (pre1 ++ [x]) < half_total classes)%Qc)
           /\ (sum_freq pre < half_total classes)%Qc
           /\ (half_total classes <= sum_freq pre + f)%Qc
           /\ synthetic_median_from_classes classes = Ok (Fin v)
           /\ (b = None -> v = or_zero a)
           /\ (forall u, b = Some u -> (u <= or_zero a)%Qc -> v = or_zero a)
           /\ (forall u, b = Some u -> (or_zero a < u)%Qc ->
                 v = (or_zero a
                      + (half_total classes - sum_freq pre) / f
                        * (u - or_zero a))%Qc)).
Proof.
  split; [qc_compute|]. split; [qc_compute|]. split.
  - intro classes. split; [apply sorted_perm|].
    split; [apply sorted_ascend | intro k; apply sorted_stable].
  - intros classes Hpos.
    unfold synthetic_median_from_classes, half_total.
    rewrite sum_freq_sorted.
    destruct (Qcleb (sum_freq classes) 0) eqn:Et.
    { apply Qcleb_le in Et. exfalso. qc_lra. }
    set (target := (Q2Qc (1 # 2) * sum_freq classes)%Qc).
    assert (0 < target)%Qc as Ht by (subst target; qc_lra).
    assert (exists r, walk target 0 (sorted classes) = Some r) as [r Hr].
    { subst target. rewrite <- (sum_freq_sorted classes).
      apply walk_found. rewrite sum_freq_sorted. assumption. }
    rewrite Hr.
    destruct (walk_median_class _ _ _ _ Ht Hr)
      as (pre & a & b & f & post & Es & Hf & Hfirst & Hlo & Hhi & ->).
    assert (forall q : Qc, 0 + q = q)%Qc as E0 by (intro q; ring).
    rewrite E0 in Hlo, Hhi.
    eexists pre, a, b, f, post, _.
    split; [exact Es|]. split; [exact Hf|].
    split.
    { intros pre1 x pre2 E Hx. specialize (Hfirst _ _ _ E Hx).
      rewrite E0 in Hfirst. exact Hfirst. }
    split; [exact Hlo|]. split; [exact Hhi|].
    split; [reflexivity|].
    rewrite E0.
    split; [intros ->; reflexivity|].
    split; intros u -> Hu.
    + apply Qcleb_le in Hu. rewrite Hu. reflexivity.
    + apply Qcleb_gt in Hu. rewrite Hu. reflexivity.
Qed.

Lemma synthetic_median_interpolates_witness :
  exists pre a b f post v,
    sorted example_classes = pre ++ (a, b, Some f) :: post
    /\ f <> 0%Qc
    /\ (forall pre1 x pre2,
           pre = pre1 ++ x :: pre2 -> live x = true ->
           (sum_freq (pre1 ++ [x]) < half_total example_classes)%Qc)
    /\ (sum_freq pre < half_total example_classes)%Qc
    /\ (half_total example_classes <= sum_freq pre + f)%Qc
    /\ synthetic_median_from_classes example_classes = Ok (Fin v)
    /\ (b = None -> v = or_zero a)
    /\ (forall u, b = Some u -> (u <= or_zero a)%Qc -> v = or_zero a)
    /\ (forall u, b = Some u -> (or_zero a < u)%Qc ->
          v = (or_zero a
               + (half_total example_classes - sum_freq pre) / f
                 * (u - or_zero a))%Qc).
Proof.
  apply (proj2 (proj2 (proj2 synthetic_median_interpolates)) example_classes).
  vm_compute. reflexivity.
Defined.

(* ================================================================== *)
(** * Further properties of the label parser *)

(* ------------------------------------------------------------------ *)
(** ** What a match captures *)

Lemma strip_prefix_app (p s rest : str) :
  Str.strip_prefix p s = Some rest -> s = p ++ rest.
Proof.
  revert s. induction p as [|c p IH]; intros s H; simpl in H.
  - injection H as <-. reflexivity.
  - destruct s as [|d s]; [discriminate|].
    destruct (N.eqb_spec c d); [|discriminate].
    subst d. simpl. f_equal. apply IH. assumption.
Qed.

Lemma star_sound (p : N -> bool) (cs : caps)
      (k : str -> caps -> option caps) (m : caps) :
  forall inp,
    rmatch (Star p) inp cs k = Some m ->
    exists w inp', inp = w ++ inp' /\ forallb p w = true
                   /\ k inp' cs = Some m.
Proof.
  induction inp as [|c inp IH]; intro H.
  - exists [], []. auto.
  - simpl in H. destruct (p c) eqn:Ep.
    + destruct ((fix star (inp0 : str) : option caps :=
                   match inp0 with
                   | [] => k inp0 cs
                   | c0 :: rest =>
                       if p c0
                       then match star rest with
                            | Some m0 => Some m0
                            | None => k inp0 cs
                            end
                       else k inp0 cs
                   end) inp) as [m'|] eqn:Es.
      * injection H as ->.
        destruct (IH Es) as (w & inp' & -> & Hw & Hk).
        exists (c :: w), inp'. simpl. rewrite Ep, Hw. auto.
      * exists [], (c :: inp). auto.
    + exists [], (c :: inp). auto.
Qed.

Lemma rmatch_sound (r : re) :
  forall inp cs k m,
    rmatch r inp cs k = Some m ->
    exists inp' cs', denotes r inp inp' cs cs' /\ k inp' cs' = Some m.
Proof.
  induction r as [s|p|p|r1 IH1|r1 IH1 r2 IH2|r1 IH1 r2 IH2|i r1 IH1|];
    intros inp cs k m H.
  - simpl in H. destruct (Str.strip_prefix s inp) as [rest|] eqn:E;
      [|discriminate].
    apply strip_prefix_app in E. exists rest, cs. simpl. auto.
  - simpl in H. destruct inp as [|c rest]; [discriminate|].
    destruct (p c) eqn:Ep; [|discriminate].
    exists rest, cs. simpl. eauto.
  - destruct (star_sound _ _ _ _ _ H) as (w & inp' & -> & Hw & Hk).
    exists inp', cs. simpl. eauto.
  - simpl in H. destruct (rmatch r1 inp cs k) as [m'|] eqn:E.
    + injection H as ->. destruct (IH1 _ _ _ _ E) as (inp' & cs' & Hd & Hk).
      exists inp', cs'. simpl. auto.
    + exists inp, cs. simpl. auto.
  - simpl in H. destruct (rmatch r1 inp cs k) as [m'|] eqn:E.
    + injection H as ->. destruct (IH1 _ _ _ _ E) as (inp' & cs' & Hd & Hk).
      exists inp', cs'. simpl. auto.
    + destruct (IH2 _ _ _ _ H) as (inp' & cs' & Hd & Hk).
      exists inp', cs'. simpl. auto.
  - simpl in H. destruct (IH1 _ _ _ _ H) as (mid & csm & Hd1 & H2).
    destruct (IH2 _ _ _ _ H2) as (inp' & cs' & Hd2 & Hk).
    exists inp', cs'. simpl. eauto.
  - simpl in H. destruct (IH1 _ _ _ _ H) as (inp' & cs1 & Hd & Hk).
    eexists inp', _. simpl. eauto.
  - simpl in H. exists inp, cs. simpl. split; [auto|].
    repeat match type of H with
           | context [match ?x with _ => _ end] => destruct x
           end; solve [assumption | discriminate].
Qed.

Lemma search_sound (r : re) (s : str) (m : caps) :
  search r s = Some m ->
  exists inp inp', denotes r inp inp' [] m.
Proof.
  induction s as [|c s IH]; simpl; intro H.
  - destruct (rmatch r [] [] (fun _ cs => Some cs)) as [m'|] eqn:E;
      [|discriminate].
    injection H as ->. apply rmatch_sound in E.
    destruct E as (inp' & cs' & Hd & Hk). injection Hk as ->. eauto.
  - destruct (rmatch r (c :: s) [] (fun _ cs => Some cs)) as [m'|] eqn:E.
    + injection H as ->. apply rmatch_sound in E.
      destruct E as (inp' & cs' & Hd & Hk). injection Hk as ->. eauto.
    + auto.
Qed.

Lemma denotes_suffix (r : re) :
  forall inp inp' cs cs',
    denotes r inp inp' cs cs' -> exists w, inp = w ++ inp'.
Proof.
  induction r as [s|p|p|r1 IH1|r1 IH1 r2 IH2|r1 IH1 r2 IH2|i r1 IH1|];
    simpl; intros inp inp' cs cs' H.
  - destruct H as [-> _]. eauto.
  - destruct H as (c & -> & _). exists [c]. reflexivity.
  - destruct H as (w & -> & _). eauto.
  - destruct H as [H|[-> _]]; [eauto | exists []; reflexivity].
  - destruct H as [H|H]; eauto.
  - destruct H as (mid & csm & H1 & H2).
    destruct (IH1 _ _ _ _ H1) as [w1 ->], (IH2 _ _ _ _ H2) as [w2 ->].
    exists (w1 ++ w2). rewrite app_assoc. reflexivity.
  - destruct H as (cs1 & H & _). eauto.
  - destruct H as [-> _]. exists []. reflexivity.
Qed.

Lemma firstn_consumed (w inp' : str) :
  firstn (List.length (w ++ inp') - List.length inp') (w ++ inp') = w.
Proof.
  rewrite length_app, Nat.add_sub, firstn_app, Nat.sub_diag, firstn_all.
  simpl. apply app_nil_r.
Qed.

Lemma denotes_plus_digit (inp inp' : str) (cs cs' : caps) :
  denotes (Plus isdigit) inp inp' cs cs' ->
  cs' = cs /\ exists w, digit_run w /\ inp = w ++ inp'.
Proof.
  simpl. intros (mid & csm & (c & -> & Hc & ->) & (w & -> & Hw & ->)).
  split; [reflexivity|]. exists (c :: w). split; [|reflexivity].
  split; [discriminate|]. simpl. rewrite Hc, Hw. reflexivity.
Qed.

Lemma denotes_frac (i : nat) (inp inp' : str) (cs cs' : caps) :
  denotes (frac_pattern i) inp inp' cs cs' ->
  exists w, cs' = (i, w) :: cs /\ frac_text w.
Proof.
  unfold frac_pattern. cbn [denotes].
  intros (cs1 & (mid & csm & Hn & Hopt) & ->).
  apply denotes_plus_digit in Hn. destruct Hn as (-> & n & Hn & ->).
  destruct Hopt as [(mid2 & csm2 & [-> ->] & Hd)|[-> ->]].
  - apply denotes_plus_digit in Hd. destruct Hd as (-> & d & Hd & ->).
    exists (n ++ [47%N] ++ d). split.
    + f_equal. f_equal.
      replace (n ++ py "/" ++ d ++ inp') with ((n ++ [47%N] ++ d) ++ inp')
        by (rewrite <- !app_assoc; reflexivity).
      apply firstn_consumed.
    + right. exists n, d. auto.
  - exists n. split; [|left; assumption].
    f_equal. f_equal. apply firstn_consumed.
Qed.

Lemma one_of_sep (c : N) :
  existsb (N.eqb c) [46%N; 44%N] = true -> c = 46%N \/ c = 44%N.
Proof.
  simpl. rewrite !orb_true_iff, !N.eqb_eq. intuition discriminate.
Qed.

Lemma denotes_amount (i : nat) (inp inp' : str) (cs cs' : caps) :
  denotes (amount_pattern i) inp inp' cs cs' ->
  exists w, cs' = (i, w) :: cs /\ amount_text w.
Proof.
  unfold amount_pattern, one_of. cbn [denotes].
  intros (cs1 & (mid & csm & Hn & Hopt) & ->).
  apply denotes_plus_digit in Hn. destruct Hn as (-> & n & Hn & ->).
  destruct Hopt as [(mid2 & csm2 & (c & -> & Hc & ->) & Hd)|[-> ->]].
  - apply denotes_plus_digit in Hd. destruct Hd as (-> & d & Hd & ->).
    apply one_of_sep in Hc.
    exists (n ++ [c] ++ d). split.
    + f_equal. f_equal.
      replace (n ++ c :: d ++ inp') with ((n ++ [c] ++ d) ++ inp')
        by (rewrite <- !app_assoc; reflexivity).
      apply firstn_consumed.
    + right. exists n, d. destruct Hc as [-> | ->]; auto.
  - exists n. split; [|left; assumption].
    f_equal. f_equal. apply firstn_consumed.
Qed.

(* ------------------------------------------------------------------ *)
(** ** Reading the captured numbers *)

Lemma digits_acc_app (n d : str) :
  forall acc a,
    digits_acc acc n = Some a -> digits_acc acc (n ++ d) = digits_acc a d.
Proof.
  induction n as [|c n IH]; simpl; intros acc a H.
  - injection H as <-. reflexivity.
  - destruct (isdigit c); [|discriminate]. apply IH. assumption.
Qed.

Lemma digits_acc_any (w : str) :
  forall acc v acc',
    digits_acc acc w = Some v -> exists v', digits_acc acc' w = Some v'.
Proof.
  induction w as [|c w IH]; cbn [digits_acc]; intros acc v acc' H; [eauto|].
  destruct (isdigit c); [|discriminate]. eapply IH. eassumption.
Qed.

Lemma digits_acc_value (w : str) :
  forall acc v b,
    digits_acc acc w = Some v -> digits_acc 0 w = Some b ->
    v = (acc * 10 ^ N.of_nat (List.length w) + b)%N.
Proof.
  induction w as [|c w IH]; cbn [digits_acc List.length]; intros acc v b Hv Hb.
  - injection Hv as <-. injection Hb as <-. simpl. lia.
  - destruct (isdigit c); [|discriminate].
    destruct (digits_acc_any _ _ _ 0%N Hv) as [b0 E0].
    pose proof (IH _ _ _ Hv E0) as H1. pose proof (IH _ _ _ Hb E0) as H2.
    rewrite Nat2N.inj_succ, N.pow_succ_r'. lia.
Qed.

Lemma digits_acc_forall (w : str) :
  forall acc v, digits_acc acc w = Some v -> forallb isdigit w = true.
Proof.
  induction w as [|c w IH]; cbn [digits_acc forallb]; intros acc v H;
    [reflexivity|].
  destruct (isdigit c); [|discriminate]. eapply IH. eassumption.
Qed.

Lemma digits_acc_run (w : str) :
  forall acc, forallb isdigit w = true -> exists v, digits_acc acc w = Some v.
Proof.
  induction w as [|c w IH]; cbn [digits_acc forallb]; intros acc H; [eauto|].
  apply andb_true_iff in H. destruct H as [-> H]. apply IH, H.
Qed.

Lemma digits_run (w : str) (v : N) : digits w = Some v -> digit_run w.
Proof.
  unfold digits, digit_run. destruct w as [|c w]; [discriminate|].
  intro H. split; [discriminate | eapply digits_acc_forall; eassumption].
Qed.

Lemma run_digits (w : str) : digit_run w -> exists v, digits w = Some v.
Proof.
  intros [Hne Hall]. unfold digits. destruct w as [|c w]; [congruence|].
  apply digits_acc_run. assumption.
Qed.

Lemma run_app (n d : str) : digit_run n -> digit_run d -> digit_run (n ++ d).
Proof.
  intros [Hn Hn'] [Hd Hd']. split.
  - destruct n; [congruence | discriminate].
  - rewrite forallb_app, Hn', Hd'. reflexivity.
Qed.

Lemma split1_none (sep : N) (w : str) :
  isdigit sep = false -> forallb isdigit w = true -> Str.split1 sep w = None.
Proof.
  intro Hs. induction w as [|c w IH]; simpl; [reflexivity|].
  rewrite andb_true_iff. intros [Hc Hw].
  destruct (N.eqb_spec c sep); [congruence|]. rewrite (IH Hw). reflexivity.
Qed.

Lemma split1_at (sep : N) (n d : str) :
  isdigit sep = false -> forallb isdigit n = true ->
  Str.split1 sep (n ++ [sep] ++ d) = Some (n, d).
Proof.
  intro Hs. induction n as [|c n IH]; simpl.
  - rewrite N.eqb_refl. reflexivity.
  - rewrite andb_true_iff. intros [Hc Hn].
    destruct (N.eqb_spec c sep); [congruence|].
    simpl in IH. rewrite (IH Hn). reflexivity.
Qed.

Lemma contains_single (c : N) (w : str) :
  Str.contains [c] w = existsb (N.eqb c) w.
Proof.
  induction w as [|d w IH]; [reflexivity|].
  cbn [Str.contains Str.strip_prefix existsb].
  destruct (c =? d)%N; [reflexivity | exact IH].
Qed.

Lemma contains_slash_run (w : str) :
  forallb isdigit w = true -> Str.contains (py "/") w = false.
Proof.
  change (py "/") with [47%N]. rewrite contains_single.
  induction w as [|c w IH]; cbn [forallb existsb]; [reflexivity|].
  rewrite andb_true_iff. intros [Hc Hw]. rewrite (IH Hw), orb_false_r.
  destruct (N.eqb_spec 47 c) as [<-|_]; [discriminate Hc | reflexivity].
Qed.

Lemma contains_slash_at (n d : str) :
  Str.contains (py "/") (n ++ [47%N] ++ d) = true.
Proof.
  change (py "/") with [47%N]. rewrite contains_single, !existsb_app.
  cbn [existsb]. rewrite N.eqb_refl, orb_true_r. reflexivity.
Qed.

Lemma replace_absent (old : N) (new w : str) :
  ~ In old w -> Str.replace old new w = w.
Proof.
  unfold Str.replace. induction w as [|c w IH]; simpl; [reflexivity|].
  intro H. destruct (N.eqb_spec c old) as [->|_]; [tauto|].
  rewrite IH by tauto. reflexivity.
Qed.

Lemma run_absent (c : N) (w : str) :
  isdigit c = false -> forallb isdigit w = true -> ~ In c w.
Proof.
  intros Hc Hw Hin. rewrite forallb_forall in Hw.
  rewrite (Hw c Hin) in Hc. discriminate.
Qed.

Lemma replace_run (old : N) (new w : str) :
  isdigit old = false -> forallb isdigit w = true -> Str.replace old new w = w.
Proof. intros Ho Hw. apply replace_absent, run_absent; assumption. Qed.

Lemma replace_at (old : N) (new n d : str) :
  isdigit old = false ->
  forallb isdigit n = true -> forallb isdigit d = true ->
  Str.replace old new (n ++ [old] ++ d) = n ++ new ++ d.
Proof.
  intros Ho Hn Hd. unfold Str.replace. rewrite !flat_map_app.
  fold (Str.replace old new n). fold (Str.replace old new d).
  rewrite (replace_run _ _ _ Ho Hn), (replace_run _ _ _ Ho Hd).
  simpl. rewrite N.eqb_refl, app_nil_r. reflexivity.
Qed.

Lemma py_float_run (w : str) (v : N) : digits w = Some v -> py_float w = Ok (QcN v).
Proof.
  intro H. unfold py_float.
  rewrite (split1_none 46 w eq_refl (proj2 (digits_run _ _ H))), H.
  reflexivity.
Qed.

Lemma QcN_zero (b : N) : QcN b = 0%Qc -> b = 0%N.
Proof.
  intro E.
  assert (inject_Z (Z.of_N b) == 0)%Q as H.
  { rewrite <- (Qred_correct (inject_Z (Z.of_N b))).
    change (Qred (inject_Z (Z.of_N b))) with (this (QcN b)).
    rewrite E. reflexivity. }
  unfold Qeq in H. simpl in H. lia.
Qed.

(** X5.  [to_float] reads a dot as a thousands separator and a comma as
    the decimal mark: with digit runs n and d, "n.d" is the integer
    written nd, whatever the length of d, and "n,d" is n plus d over
    10^len(d). *)
Theorem to_float_locale (n d : str) (a b : N) :
  digits n = Some a -> digits d = Some b ->
  to_float (n ++ py "." ++ d)
  = Ok (QcN (a * 10 ^ N.of_nat (List.length d) + b))
  /\ to_float (n ++ py "," ++ d)
     = Ok (QcN a + QcN b / QcN (10 ^ N.of_nat (List.length d)))%Qc.
Proof.
  intros Hn Hd.
  destruct (digits_run _ _ Hn) as [Hn0 Hn1], (digits_run _ _ Hd) as [Hd0 Hd1].
  unfold to_float. split.
  - change (py ".") with [46%N].
    rewrite (replace_at 46 [] n d eq_refl Hn1 Hd1). cbn [app].
    rewrite (replace_run 44 _ (n ++ d) eq_refl)
      by (rewrite forallb_app, Hn1, Hd1; reflexivity).
    apply py_float_run. unfold digits in *.
    destruct n as [|c n]; [congruence|]. cbn [app].
    change (c :: n ++ d) with ((c :: n) ++ d).
    rewrite (digits_acc_app _ _ _ _ Hn).
    destruct d as [|e d]; [congruence|].
    destruct (digits_acc_any _ _ _ a Hd) as [v Ev].
    rewrite Ev, (digits_acc_value _ _ _ _ Ev Hd). reflexivity.
  - change (py ",") with [44%N].
    rewrite (replace_absent 46 [] (n ++ [44%N] ++ d)).
    + change (py ".") with [46%N].
      rewrite (replace_at 44 [46%N] n d eq_refl Hn1 Hd1).
      unfold py_float.
      rewrite (split1_at 46 n d eq_refl Hn1), Hn, Hd. reflexivity.
    + rewrite !in_app_iff. intros [H|[[H|[]]|H]]; [|discriminate H|];
        revert H; apply run_absent; auto.
Qed.

Lemma to_float_locale_witness :
  to_float (py "1" ++ py "." ++ py "5") = Ok (QcN (1 * 10 ^ 1 + 5))
  /\ to_float (py "1" ++ py "," ++ py "5")
     = Ok (QcN 1 + QcN 5 / QcN (10 ^ 1))%Qc.
Proof.
  apply (to_float_locale (py "1") (py "5") 1 5); reflexivity.
Defined.

(** X6.  [eval_fraction] on "n/d", with digit runs n and d, is the ratio of
    the two numbers, and raises ZeroDivisionError when d is written with
    zeros only; on a digit run alone it is that number. *)
Theorem eval_fraction_ratio (n d : str) (a b : N) :
  digits n = Some a -> digits d = Some b ->
  eval_fraction n = Ok (QcN a)
  /\ eval_fraction (n ++ py "/" ++ d)
     = if (b =? 0)%N then Raise ZeroDivisionError else Ok (QcN a / QcN b)%Qc.
Proof.
  intros Hn Hd.
  destruct (digits_run _ _ Hn) as [Hn0 Hn1], (digits_run _ _ Hd) as [Hd0 Hd1].
  change (n ++ py "/" ++ d) with (n ++ [47%N] ++ d).
  unfold eval_fraction. split.
  - rewrite (contains_slash_run _ Hn1). apply py_float_run, Hn.
  - rewrite contains_slash_at, (split1_at 47 n d eq_refl Hn1).
    rewrite (py_float_run _ _ Hn), (py_float_run _ _ Hd). cbn [bind].
    unfold py_div. destruct (N.eqb_spec b 0) as [->|Hb].
    + reflexivity.
    + destruct (Qceqb (QcN b) 0) eqn:E; [|reflexivity].
      exfalso. apply Qceqb_eq in E. apply Hb, QcN_zero, E.
Qed.

Lemma eval_fraction_ratio_witness :
  eval_fraction (py "3") = Ok (QcN 3)
  /\ eval_fraction (py "3" ++ py "/" ++ py "00")
     = if (0 =? 0)%N then Raise ZeroDivisionError else Ok (QcN 3 / QcN 0)%Qc.
Proof.
  apply (eval_fraction_ratio (py "3") (py "00") 3 0); reflexivity.
Defined.

(* ------------------------------------------------------------------ *)
(** ** The only exception of the parser *)

Lemma eval_fraction_frac (w : str) (e : exn) :
  frac_text w -> eval_fraction w = Raise e -> e = ZeroDivisionError.
Proof.
  intros [Hw|(n & d & Hn & Hd & ->)] H.
  - destruct (run_digits _ Hw) as [v Hv]. unfold eval_fraction in H.
    rewrite (contains_slash_run _ (proj2 Hw)), (py_float_run _ _ Hv) in H.
    discriminate.
  - destruct (run_digits _ Hn) as [a Ha], (run_digits _ Hd) as [b Hb].
    unfold eval_fraction in H.
    rewrite contains_slash_at, (split1_at 47 n d eq_refl (proj2 Hn)) in H.
    rewrite (py_float_run _ _ Ha), (py_float_run _ _ Hb) in H.
    cbn [bind] in H. unfold py_div in H.
    destruct (Qceqb (QcN b) 0); congruence.
Qed.

Lemma to_float_amount (w : str) : amount_text w -> exists v, to_float w = Ok v.
Proof.
  unfold to_float. intros [Hw|(n & d & Hn & Hd & [-> | ->])].
  - destruct (run_digits _ Hw) as [v Hv].
    rewrite (replace_run 46 [] w eq_refl (proj2 Hw)).
    rewrite (replace_run 44 _ w eq_refl (proj2 Hw)).
    rewrite (py_float_run _ _ Hv). eauto.
  - rewrite (replace_at 46 [] n d eq_refl (proj2 Hn) (proj2 Hd)). cbn [app].
    destruct (run_digits _ (run_app _ _ Hn Hd)) as [v Hv].
    rewrite (replace_run 44 _ (n ++ d) eq_refl (proj2 (run_app _ _ Hn Hd))).
    rewrite (py_float_run _ _ Hv). eauto.
  - destruct (run_digits _ Hn) as [a Ha], (run_digits _ Hd) as [b Hb].
    rewrite (replace_absent 46 [] (n ++ [44%N] ++ d)).
    + change (py ".") with [46%N].
      rewrite (replace_at 44 [46%N] n d eq_refl (proj2 Hn) (proj2 Hd)).
      unfold py_float.
      rewrite (split1_at 46 n d eq_refl (proj2 Hn)), Ha, Hb. eauto.
    + rewrite !in_app_iff. intros [H|[[H|[]]|H]]; [|discriminate H|];
        revert H; apply run_absent; solve [reflexivity | apply Hn | apply Hd].
Qed.

Lemma denotes_sm_token (i : nat) (inp inp' : str) (cs cs' : caps) :
  denotes (sm_token i) inp inp' cs cs' -> exists w, cs' = (i, w) :: cs.
Proof.
  unfold sm_token, one_of. cbn [denotes seq].
  intros (cs1 & [[_ ->]|(m1 & c1 & [_ ->] & m2 & c2 & (c & _ & _ & ->)
                         & [_ ->])] & ->); eauto.
Qed.

Ltac open_match H :=
  apply search_sound in H; destruct H as (? & ? & H);
  unfold re_ate_sm, re_mais_de_a_sm, re_mais_de_sm, re_ate, re_mais_de_a,
    re_mais_de, space, dot_star, one_of in H;
  cbn [seq denotes] in H;
  repeat match type of H with
         | ex _ => destruct H as (? & H)
         | _ /\ _ =>
             let H1 := fresh "Hm" in destruct H as [H1 H];
             try match type of H1 with
                 | _ = _ /\ _ = _ => destruct H1 as [_ ->]
                 | ex _ => destruct H1 as (? & _ & _ & ->)
                 end
         end;
  repeat match goal with
         | Hf : denotes (frac_pattern _) _ _ _ _ |- _ =>
             apply denotes_frac in Hf; destruct Hf as (? & -> & Hf)
         | Hf : denotes (amount_pattern _) _ _ _ _ |- _ =>
             apply denotes_amount in Hf; destruct Hf as (? & -> & Hf)
         | Hf : denotes (sm_token _) _ _ _ _ |- _ =>
             apply denotes_sm_token in Hf; destruct Hf as (? & ->)
         end;
  subst; cbn [group Nat.eqb].

Lemma ate_sm_groups (s : str) (m : caps) :
  search re_ate_sm s = Some m -> frac_text (group m 1).
Proof. intro H. open_match H. assumption. Qed.

Lemma mais_de_a_sm_groups (s : str) (m : caps) :
  search re_mais_de_a_sm s = Some m ->
  frac_text (group m 1) /\ frac_text (group m 2).
Proof. intro H. open_match H. split; assumption. Qed.

Lemma mais_de_sm_groups (s : str) (m : caps) :
  search re_mais_de_sm s = Some m -> frac_text (group m 1).
Proof. intro H. open_match H. assumption. Qed.

Lemma ate_groups (s : str) (m : caps) :
  search re_ate s = Some m -> amount_text (group m 1).
Proof. intro H. open_match H. assumption. Qed.

Lemma mais_de_a_groups (s : str) (m : caps) :
  search re_mais_de_a s = Some m ->
  amount_text (group m 1) /\ amount_text (group m 2).
Proof. intro H. open_match H. split; assumption. Qed.

Lemma mais_de_groups (s : str) (m : caps) :
  search re_mais_de s = Some m -> amount_text (group m 1).
Proof. intro H. open_match H. assumption. Qed.

Ltac captured_texts :=
  repeat match goal with
         | E : search re_ate_sm _ = Some _ |- _ => apply ate_sm_groups in E
         | E : search re_mais_de_a_sm _ = Some _ |- _ =>
             apply mais_de_a_sm_groups in E; destruct E
         | E : search re_mais_de_sm _ = Some _ |- _ =>
             apply mais_de_sm_groups in E
         | E : search re_ate _ = Some _ |- _ => apply ate_groups in E
         | E : search re_mais_de_a _ = Some _ |- _ =>
             apply mais_de_a_groups in E; destruct E
         | E : search re_mais_de _ = Some _ |- _ => apply mais_de_groups in E
         end.

Ltac no_value_error :=
  match goal with
  | E : to_float ?w = Raise _, T : amount_text ?w |- _ =>
      destruct (to_float_amount w T) as [? E']; rewrite E' in E;
      discriminate E
  | E : eval_fraction ?w = Raise _, T : frac_text ?w |- _ =>
      apply (eval_fraction_frac w _ T) in E
  end.

(** X7.  The parser raises nothing but ZeroDivisionError, and only on a
    label that mentions the minimum wage: every number the patterns capture
    is one that [float] reads, and the only division is that of a fraction
    n/d of such a label. *)
Theorem parser_raises_only_zero_division (label : str) (sm : Qc) (e : exn) :
  parse_bounds_from_label label sm = Raise e ->
  e = ZeroDivisionError
  /\ mentions_sm (Str.lower (Str.strip label)) = true.
Proof.
  intro H. parser_cases H; try discriminate; captured_texts;
    repeat no_value_error; subst; inversion H; subst; auto.
Qed.

Lemma parser_raises_only_zero_division_witness :
  ZeroDivisionError = ZeroDivisionError
  /\ mentions_sm (Str.lower (Str.strip zero_denominator_label)) = true.
Proof.
  apply (parser_raises_only_zero_division zero_denominator_label (qz 1212)).
  reflexivity.
Defined.

(* ================================================================== *)
(** * Further properties of [compute_median_from_csv] *)

Lemma build_classes_ok (g : list row) (sm : Qc) :
  (exists classes, build_classes g sm = Ok classes)
  <-> forall r, In r g -> exists b, parse_bounds_from_label (categoria r) sm = Ok b.
Proof.
  induction g as [|r g IH]; cbn [build_classes].
  - split; [intros _ r [] | eauto].
  - unfold bind.
    destruct (parse_bounds_from_label (categoria r) sm) as [[a b]|e] eqn:Ep.
    + split.
      * intros [cl H] r0 [<-|Hin]; [rewrite Ep; eauto|].
        apply IH; [|assumption].
        destruct a, b, (build_classes g sm); eauto; discriminate.
      * intro H.
        destruct (proj2 IH (fun r0 Hr => H r0 (or_intror Hr))) as [rest ->].
        destruct a, b; eauto.
    + split.
      * intros [cl H]. discriminate.
      * intro H. destruct (H r (or_introl eq_refl)) as [b Hb].
        rewrite Ep in Hb. discriminate.
Qed.

Lemma medians_ok (keys : list str) (rows : list row) (sm : Qc) :
  (forall k, In k keys ->
             exists classes, build_classes (group_rows k rows) sm = Ok classes) ->
  exists out, medians keys rows sm = Ok out.
Proof.
  induction keys as [|k keys IH]; intro H; simpl; [eauto|].
  destruct (H k (or_introl eq_refl)) as [cl ->]. cbn [bind].
  destruct (IH (fun k' Hk => H k' (or_intror Hk))) as [rest Hrest].
  destruct cl as [|c cl]; [eauto|].
  destruct (synthetic_median_ok (c :: cl)) as [m ->]. cbn [bind].
  rewrite Hrest. cbn [bind]. eauto.
Qed.

(** X8.  Past the reading of the file and the check of its columns, that
    is, on a frame that has the three columns and has been normalised, the
    grouping loop of [compute_median_from_csv] returns a table exactly when
    every label of the frame parses without raising: one raising label, in
    whatever unit, loses the whole batch, and no other step of the loop
    raises. *)
Theorem compute_median_completes (rows : list row) (sm : Qc) :
  (exists out, compute_median_from_csv rows sm = Ok out)
  <-> forall r, In r rows ->
                exists b, parse_bounds_from_label (categoria r) sm = Ok b.
Proof.
  unfold compute_median_from_csv. split.
  - intros [out H] r Hr.
    assert (In (cd_mun r) (group_keys rows)) as Hk
        by (apply group_keys_In, in_map, Hr).
    destruct (medians_builds _ _ _ _ H _ Hk) as [cl Hcl].
    apply (proj1 (build_classes_ok _ _) (ex_intro _ cl Hcl)).
    apply group_rows_In. auto.
  - intro H. apply medians_ok. intros k _.
    apply build_classes_ok. intros r Hr. apply H.
    apply group_rows_In in Hr. tauto.
Qed.

Lemma compute_median_completes_witness :
  exists out, compute_median_from_csv mixed_rows (qz 1212) = Ok out.
Proof.
  apply (proj2 (compute_median_completes mixed_rows (qz 1212))).
  intros r [<-|[<-|[<-|[<-|[]]]]]; eexists; vm_compute; reflexivity.
Defined.

(* ------------------------------------------------------------------ *)
(** ** One row per unit, in the order of the codes *)

Lemma str_ltb_irrefl (s : str) : str_ltb s s = false.
Proof.
  induction s as [|c s IH]; [reflexivity|].
  simpl. rewrite N.ltb_irrefl, N.eqb_refl, IH. reflexivity.
Qed.

Lemma str_ltb_trans (s t u : str) :
  str_ltb s t = true -> str_ltb t u = true -> str_ltb s u = true.
Proof.
  revert t u. induction s as [|c s IH]; intros [|d t] [|e u]; simpl;
    try congruence.
  rewrite !orb_true_iff, !andb_true_iff, !N.ltb_lt, !N.eqb_eq.
  intros [H1|[-> H1]] [H2|[-> H2]].
  - left. lia.
  - left. assumption.
  - left. assumption.
  - right. split; [reflexivity | eapply IH; eassumption].
Qed.

Lemma str_ltb_total (s t : str) :
  Str.eqb s t = false -> str_ltb s t = false -> str_ltb t s = true.
Proof.
  revert t. induction s as [|c s IH]; intros [|d t]; simpl; try congruence.
  rewrite andb_false_iff, orb_false_iff, andb_false_iff, N.ltb_ge.
  rewrite orb_true_iff, andb_true_iff, N.ltb_lt, !N.eqb_neq, N.eqb_eq.
  intros He [Hlt Hs].
  destruct (N.eq_dec c d) as [->|Hcd].
  - right. split; [reflexivity|]. apply IH.
    + destruct He as [He|He]; [congruence | assumption].
    + destruct Hs as [Hs|Hs]; [congruence | assumption].
  - left. lia.
Qed.

Lemma insert_key_ascend (k : str) (l : list str) :
  codes_ascend l -> codes_ascend (insert_key k l).
Proof.
  unfold codes_ascend. induction 1 as [|y l Hl IH Hy]; simpl.
  - constructor; constructor.
  - destruct (Str.eqb k y) eqn:Ee; [constructor; assumption|].
    destruct (str_ltb k y) eqn:El.
    + constructor; [constructor; assumption|].
      constructor; [assumption|].
      rewrite Forall_forall in *. intros z Hz.
      eapply str_ltb_trans; [eassumption | auto].
    + constructor; [assumption|].
      rewrite Forall_forall in *. intros z Hz.
      apply insert_key_In in Hz. destruct Hz as [->|Hz]; [|auto].
      apply str_ltb_total; assumption.
Qed.

Lemma group_keys_ascend (rows : list row) : codes_ascend (group_keys rows).
Proof.
  induction rows as [|r rows IH]; simpl;
    [constructor | apply insert_key_ascend, IH].
Qed.

Lemma medians_ascend (keys : list str) (rows : list row) (sm : Qc) :
  codes_ascend keys ->
  forall out,
    medians keys rows sm = Ok out ->
    codes_ascend (map fst out) /\ forall u, In u (map fst out) -> In u keys.
Proof.
  unfold codes_ascend. induction 1 as [|k keys Hl IH Hk]; simpl; intros out H.
  - injection H as <-. split; [constructor | tauto].
  - unfold bind in H.
    destruct (build_classes (group_rows k rows) sm) as [cl|]; [|discriminate].
    destruct cl as [|c cl].
    + destruct (IH _ H) as [Hs Hin]. auto.
    + destruct (synthetic_median_from_classes (c :: cl)); [|discriminate].
      destruct (medians keys rows sm) as [rest|]; [|discriminate].
      injection H as <-. destruct (IH _ eq_refl) as [Hs Hin]. simpl. split.
      * constructor; [assumption|].
        rewrite Forall_forall in *. auto.
      * intros u [<-|Hu]; auto.
Qed.

(** X9.  The table [compute_median_from_csv] returns lists the unit codes
    in strictly increasing order, as Python compares strings: every unit
    has at most one row, however its input rows were scattered. *)
Theorem compute_median_one_row_per_unit (rows : list row) (sm : Qc)
        (out : list (str * pyfloat)) :
  compute_median_from_csv rows sm = Ok out ->
  codes_ascend (map fst out) /\ NoDup (map fst out).
Proof.
  intro H.
  destruct (medians_ascend _ rows sm (group_keys_ascend rows) _ H) as [Hs _].
  split; [assumption|].
  unfold codes_ascend in Hs.
  induction Hs as [|u l Hl IH Hu]; constructor; [|assumption].
  intro Hin. rewrite Forall_forall in Hu.
  specialize (Hu u Hin). rewrite str_ltb_irrefl in Hu. discriminate.
Qed.

Lemma compute_median_one_row_per_unit_witness :
  codes_ascend
    (map fst [(py "2304400", NaN); (py "3550308", Fin (qz 400 / qz 3))])
  /\ NoDup
       (map fst [(py "2304400", NaN); (py "3550308", Fin (qz 400 / qz 3))]).
Proof.
  apply (compute_median_one_row_per_unit mixed_rows (qz 1212)). qc_compute.
Defined.

(* ================================================================== *)
(** * Further properties of [load_census.py] *)

Module CensusMore.

Import Census.
#[local] Open Scope nat_scope.

(** X10.  On a non-empty frame [id_len] is the mode of the code lengths
    with ties going to the smallest: it is a length that occurs, none
    occurs more often, none as frequent is smaller, and it is the only
    length with these properties. *)
Theorem id_len_is_mode (df : frame) :
  df <> [] ->
  is_mode (lengths df) (id_len df)
  /\ forall m, is_mode (lengths df) m -> m = id_len df.
Proof.
  intro Hne.
  assert (is_mode (lengths df) (id_len df)) as Hm.
  { destruct df as [|r df]; [congruence|].
    apply CensusFacts.mode_of_is_mode. discriminate. }
  split; [assumption|].
  intros m H. eapply CensusFacts.is_mode_unique; eassumption.
Qed.

Lemma id_len_is_mode_witness :
  is_mode (lengths municipal_frame) (id_len municipal_frame)
  /\ forall m, is_mode (lengths municipal_frame) m
               -> m = id_len municipal_frame.
Proof. apply (id_len_is_mode municipal_frame). discriminate. Defined.

Lemma name_map_get_some (columns : list str) (q c : str) :
  name_map_get columns q = Some c -> In c columns /\ Str.lower c = q.
Proof.
  unfold name_map_get. intro H. apply find_some in H.
  destruct H as [Hin He]. apply Str_eqb_eq in He.
  split; [apply in_rev; assumption | assumption].
Qed.

Lemma name_map_get_none (columns : list str) (q : str) :
  name_map_get columns q = None ->
  forall col, In col columns -> Str.lower col <> q.
Proof.
  unfold name_map_get. intros H col Hin E.
  pose proof (find_none _ _ H col (proj1 (in_rev _ _) Hin)) as Hn.
  simpl in Hn. rewrite E in Hn.
  assert (Str.eqb q q = true) by (apply Str_eqb_eq; reflexivity).
  congruence.
Qed.

(** X11.  The join column is found without regard to case and in the
    order of preference: the column returned belongs to the table, its
    lower-cased name is a preferred name, and no column of the table has a
    name preferred to it; none is returned exactly when no column of the
    table lower-cases to a preferred name. *)
Theorem join_column_preference (pref columns : list str) :
  (forall c,
      join_column pref columns = Some c ->
      In c columns
      /\ exists before after,
          pref = before ++ Str.lower c :: after
          /\ forall q col, In q before -> In col columns -> Str.lower col <> q)
  /\ (join_column pref columns = None <->
      forall q col, In q pref -> In col columns -> Str.lower col <> q).
Proof.
  induction pref as [|q pref [IHs IHn]]; simpl.
  - split; [discriminate|]. split; [intros _ q col [] | reflexivity].
  - destruct (name_map_get columns q) as [c0|] eqn:E.
    + split.
      * intros c H. injection H as <-.
        apply name_map_get_some in E. destruct E as [Hin <-].
        split; [assumption|]. exists [], pref. split; [reflexivity|].
        intros q' col [].
      * split; [discriminate|]. intro H. exfalso.
        apply name_map_get_some in E. destruct E as [Hin He].
        exact (H q c0 (or_introl eq_refl) Hin He).
    + pose proof (name_map_get_none _ _ E) as Hq. split.
      * intros c H. destruct (IHs c H) as (Hin & before & after & -> & Hb).
        split; [assumption|]. exists (q :: before), after.
        split; [reflexivity|].
        intros q' col [<-|Hq'] Hcol; [apply Hq, Hcol | apply (Hb q' col Hq' Hcol)].
      * rewrite IHn. split.
        -- intros H q' col [<-|Hq'] Hcol; [apply Hq, Hcol | apply (H q' col Hq' Hcol)].
        -- intros H q' col Hq' Hcol. apply (H q' col (or_intror Hq') Hcol).
Qed.

Lemma join_column_preference_witness :
  In (py "CD_SETOR") sp_columns
  /\ exists before after,
      preferred_order = before ++ Str.lower (py "CD_SETOR") :: after
      /\ forall q col, In q before -> In col sp_columns -> Str.lower col <> q.
Proof.
  apply (proj1 (join_column_preference preferred_order sp_columns)
           (py "CD_SETOR")).
  reflexivity.
Defined.

Lemma tables_after_no_write (cfg : config) (columns tables : list str)
      (ops : list db_op) :
  tables_after (fst (ensure_column cfg columns) ++ ops) tables
  = tables_after ops tables.
Proof. unfold ensure_column. destruct existsb; reflexivity. Qed.

Lemma eqb_refl_str (s : str) : Str.eqb s s = true.
Proof. apply Str_eqb_eq. reflexivity. Qed.

(** X12.  A run leaves no temporary table behind: whatever the frame, the
    columns and the path taken, the only table written and not dropped by
    the end is the staging table. *)
Theorem run_leaves_only_staging (cfg : config) (columns : list str)
        (df : frame) (t : str) :
  In t (tables_after (fst (run cfg columns df)) []) ->
  t = staging_table cfg.
Proof.
  unfold run. destruct (avg_len df <? 13).
  - cbn [fst]. rewrite tables_after_no_write.
    destruct (id_len df =? 7); [|destruct (id_len df =? 2)];
      cbn [app tables_after filter]; rewrite ?eqb_refl_str; cbn [negb];
      intros [<-|[]]; reflexivity.
  - destruct (ensure_column cfg columns) as [added columns'] eqn:Ee.
    destruct (join_column preferred_order columns'); [|intros []].
    cbn [fst].
    replace added with (fst (ensure_column cfg columns))
      by (rewrite Ee; reflexivity).
    rewrite tables_after_no_write.
    cbn [tables_after filter]. rewrite eqb_refl_str. intros [].
Qed.

Lemma run_leaves_only_staging_witness :
  py "ibge_agregado_result" = staging_table sp_config.
Proof.
  apply (run_leaves_only_staging sp_config sp_columns municipal_frame).
  left. reflexivity.
Defined.

End CensusMore.

Module FetchFacts.

Import Fetch.
#[local] Open Scope nat_scope.

Lemma lots_cover {A : Type} (l : list A) (size : nat) :
  0 < size ->
  forall fuel i,
    List.length l <= fuel + i ->
    List.concat (map (fun s => slice l s size)
                (range_from fuel i (List.length l) size))
    = skipn i l.
Proof.
  intro Hs. induction fuel as [|fuel IH]; intros i Hf; simpl.
  - symmetry. apply skipn_all2. lia.
  - destruct (Nat.ltb_spec i (List.length l)) as [Hi|Hi].
    + simpl. rewrite IH by lia. unfold slice.
      rewrite Nat.add_comm, <- skipn_skipn. apply firstn_skipn.
    + symmetry. apply skipn_all2. assumption.
Qed.

Lemma lots_sizes {A : Type} (l : list A) (size : nat) :
  0 < size ->
  forall fuel i s,
    In s (range_from fuel i (List.length l) size) ->
    0 < List.length (slice l s size) <= size.
Proof.
  intro Hs. induction fuel as [|fuel IH]; intros i s; simpl; [tauto|].
  destruct (Nat.ltb_spec i (List.length l)) as [Hi|Hi]; [|intros []].
  intros [<-|Hin]; [|eapply IH; eassumption].
  unfold slice. rewrite length_firstn, length_skipn. lia.
Qed.

(** X13.  With a positive lot size the lots [_fetch_chunked] requests are
    the code list cut in order, nothing lost and nothing repeated, each
    lot holding at least one code and at most the lot size; a lot size of
    0 raises ValueError and a negative one requests nothing. *)
Theorem lots_partition (chunk_size : Z) (loc_codes : list str) :
  ((0 < chunk_size)%Z ->
   exists ls,
     lots chunk_size loc_codes = Ok ls
     /\ List.concat ls = loc_codes
     /\ Forall (fun sub => 0 < List.length sub <= Z.to_nat chunk_size) ls)
  /\ (chunk_size = 0%Z -> lots chunk_size loc_codes = Raise ValueError)
  /\ ((chunk_size < 0)%Z -> lots chunk_size loc_codes = Ok []).
Proof.
  unfold lots, py_range. repeat split.
  - intro Hpos.
    destruct (Z.eqb_spec chunk_size 0); [lia|].
    destruct (Z.ltb_spec chunk_size 0); [lia|].
    cbn [bind]. eexists. split; [reflexivity|]. split.
    + rewrite lots_cover by lia. reflexivity.
    + apply Forall_forall. intros sub Hin. apply in_map_iff in Hin.
      destruct Hin as (s & <- & Hs). eapply lots_sizes; [lia | eassumption].
  - intros ->. reflexivity.
  - intro Hneg.
    destruct (Z.eqb_spec chunk_size 0); [lia|].
    destruct (Z.ltb_spec chunk_size 0); [reflexivity | lia].
Qed.

Lemma lots_partition_witness :
  exists ls,
    lots 2 [py "3550308"; py "3304557"; py "2304400"] = Ok ls
    /\ List.concat ls = [py "3550308"; py "3304557"; py "2304400"]
    /\ Forall (fun sub => 0 < List.length sub <= Z.to_nat 2) ls.
Proof.
  apply (proj1 (lots_partition 2 [py "3550308"; py "3304557"; py "2304400"])).
  reflexivity.
Defined.

Lemma fetch_lots_acc (J : Type) (get : str -> option (list J))
      (rq : request) (loc_codes : list str) (size : nat) :
  forall starts data_all,
    fetch_lots J get rq starts loc_codes size data_all
    = data_all
      ++ List.concat (map (fun i =>
                        match get (lot_url rq (slice loc_codes i size)) with
                        | Some d => d
                        | None => []
                        end) starts).
Proof.
  induction starts as [|i starts IH]; intro acc; simpl.
  - symmetry. apply app_nil_r.
  - rewrite IH. destruct (get _); [|rewrite app_nil_l; reflexivity].
    rewrite app_assoc. reflexivity.
Qed.

(** X14.  [_fetch_chunked] returns the answers of the lots that succeeded,
    in the order of the lots; a lot whose request fails contributes
    nothing and stops nothing. *)
Theorem fetch_chunked_collects (J : Type) (get : str -> option (list J))
        (rq : request) (chunk_size : Z) (loc_codes : list str)
        (ls : list (list str)) :
  lots chunk_size loc_codes = Ok ls ->
  fetch_chunked J get rq chunk_size loc_codes
  = Ok (List.concat (map (fun sub => match get (lot_url rq sub) with
                                | Some d => d
                                | None => []
                                end) ls)).
Proof.
  unfold lots, fetch_chunked.
  destruct (py_range (List.length loc_codes) chunk_size) as [starts|];
    [|discriminate].
  cbn [bind]. intro H. injection H as <-.
  rewrite fetch_lots_acc, map_map. reflexivity.
Qed.

Lemma fetch_chunked_collects_witness :
  fetch_chunked nat sample_get sample_request 2
    [py "3550308"; py "3304557"; py "2304400"]
  = Ok (List.concat
          (map (fun sub => match sample_get (lot_url sample_request sub) with
                           | Some d => d
                           | None => []
                           end)
               [[py "3550308"; py "3304557"]; [py "2304400"]])).
Proof.
  apply (fetch_chunked_collects nat sample_get sample_request 2
           [py "3550308"; py "3304557"; py "2304400"]).
  reflexivity.
Defined.

End FetchFacts.

(* ================================================================== *)
(** * Further properties of [main] in [load_census_sector_income.py] *)

Module SectorIncomeFacts.

Import SectorIncome.

Lemma medians_nonempty (rows : list row) (sm : Qc) (out : medians_frame) :
  compute_median_from_csv rows sm = Ok out ->
  (out <> [] <-> exists r, In r rows /\ parseable r sm = true).
Proof.
  unfold compute_median_from_csv. intro H.
  pose proof (medians_entries _ _ _ _ H) as Hent. split.
  - destruct out as [|[u m] out]; [congruence|]. intros _.
    destruct (proj1 (Hent u m) (or_introl eq_refl)) as (_ & cl & Hb & Hne & _).
    apply (build_classes_nonempty _ _ _ Hb) in Hne.
    destruct Hne as (r & Hr & Hp). apply group_rows_In in Hr.
    exists r. tauto.
  - intros (r & Hr & Hp).
    assert (In (cd_mun r) (group_keys rows)) as Hk
        by (apply group_keys_In, in_map, Hr).
    destruct (medians_builds _ _ _ _ H _ Hk) as [cl Hb].
    destruct (synthetic_median_ok cl) as [m Hm].
    assert (In (cd_mun r, m) out) as Hin.
    { apply Hent. split; [assumption|]. exists cl.
      repeat split; try assumption.
      apply (build_classes_nonempty _ _ _ Hb).
      exists r. split; [|assumption]. apply group_rows_In. auto. }
    intros ->. destruct Hin.
Qed.

(** X15.  With a CSV file present, a run of [main] that does not raise
    ends with exit status 2 exactly when no row has a parseable label, and
    then sends nothing to the store; otherwise it uploads the medians to
    [temp_mediana_mun] and updates the target table by a join on CD_MUN. *)
Theorem main_with_csv (table_name : str) (columns : list str) (sm : Qc)
        (rows : list row) (ibge : result (option medians_frame))
        (ops : list db_op) (oc : outcome) :
  main table_name columns sm (Some rows) ibge = Ok (ops, oc) ->
  (oc = Exit2 <-> forall r, In r rows -> parseable r sm = false)
  /\ (oc = Exit2 -> ops = [])
  /\ (oc = Done ->
      exists df,
        df <> []
        /\ compute_median_from_csv rows sm = Ok df
        /\ In (ToSql temp_mediana_mun [py "cd_mun"; vl_renda_setor] df) ops
        /\ In (UpdateJoin table_name (py "CD_MUN") temp_mediana_mun
                 (py "cd_mun")) ops).
Proof.
  unfold main. cbn [bind].
  destruct (compute_median_from_csv rows sm) as [df|] eqn:Ec;
    cbn [bind]; [|discriminate].
  pose proof (medians_nonempty _ _ _ Ec) as Hne.
  destruct df as [|p df]; intro H; injection H as <- <-.
  - repeat split; try discriminate; auto.
    intros _ r Hr. destruct (parseable r sm) eqn:Ep; [|reflexivity].
    exfalso. apply (proj2 Hne); [eauto | reflexivity].
  - repeat split; try discriminate.
    + intro Hall. exfalso.
      destruct (proj1 Hne ltac:(discriminate)) as (r & Hr & Hp).
      rewrite (Hall r Hr) in Hp. discriminate.
    + intros _. exists (p :: df). repeat split; try discriminate;
        unfold upsert_to_db; apply in_or_app; right; simpl; auto.
Qed.

Lemma main_with_csv_witness :
  (Exit2 = Exit2 <->
   forall r, In r unreadable_rows -> parseable r (qz 1212) = false)
  /\ (Exit2 = Exit2 -> @nil db_op = [])
  /\ (Exit2 = Done ->
      exists df,
        df <> []
        /\ compute_median_from_csv unreadable_rows (qz 1212) = Ok df
        /\ In (ToSql temp_mediana_mun [py "cd_mun"; vl_renda_setor] df) []
        /\ In (UpdateJoin (py "sp_setores") (py "CD_MUN") temp_mediana_mun
                 (py "cd_mun")) []).
Proof.
  apply (main_with_csv (py "sp_setores") [py "CD_MUN"] (qz 1212)
           unreadable_rows (Ok None)).
  reflexivity.
Defined.

End SectorIncomeFacts.

(* ================================================================== *)
(** * Units are independent *)

Lemma group_rows_idem (u : str) (rows : list row) :
  group_rows u (group_rows u rows) = group_rows u rows.
Proof.
  unfold group_rows. induction rows as [|r rows IH]; [reflexivity|].
  simpl. destruct (Str.eqb (cd_mun r) u) eqn:E; [|assumption].
  simpl. rewrite E, IH. reflexivity.
Qed.

Lemma build_classes_rows (g : list row) (sm : Qc) (classes : list class) :
  build_classes g sm = Ok classes -> classes <> [] -> g <> [].
Proof. destruct g; [intro H; injection H as <-; congruence | discriminate]. Qed.

(** X16.  The median of a unit depends on the rows of that unit only:
    when a run on all the rows completes, the run on the rows of one unit
    completes too and gives that unit the same median. *)
Theorem unit_median_independent (rows : list row) (sm : Qc)
        (out : list (str * pyfloat)) (u : str) :
  compute_median_from_csv rows sm = Ok out ->
  exists out_u,
    compute_median_from_csv (group_rows u rows) sm = Ok out_u
    /\ forall m, In (u, m) out <-> In (u, m) out_u.
Proof.
  intro H.
  assert (exists out_u, compute_median_from_csv (group_rows u rows) sm = Ok out_u)
    as [out_u Hu].
  { unfold compute_median_from_csv in *. apply medians_ok. intros k _.
    apply build_classes_ok. intros r Hr.
    apply group_rows_In in Hr. destruct Hr as [Hr _].
    apply group_rows_In in Hr. destruct Hr as [Hr _].
    assert (In (cd_mun r) (group_keys rows)) as Hk
        by (apply group_keys_In, in_map, Hr).
    destruct (medians_builds _ _ _ _ H _ Hk) as [cl Hcl].
    apply (proj1 (build_classes_ok _ _) (ex_intro _ cl Hcl)).
    apply group_rows_In. auto. }
  exists out_u. split; [assumption|]. intro m.
  unfold compute_median_from_csv in *.
  rewrite (medians_entries _ _ _ _ H), (medians_entries _ _ _ _ Hu).
  rewrite group_rows_idem.
  assert (forall rs cl,
             build_classes (group_rows u rs) sm = Ok cl -> cl <> [] ->
             In u (group_keys rs)) as Hkey.
  { intros rs cl Hb Hne. apply group_keys_In.
    pose proof (build_classes_rows _ _ _ Hb Hne) as Hg.
    destruct (group_rows u rs) as [|r g] eqn:Eg; [congruence|].
    assert (In r (group_rows u rs)) as Hr by (rewrite Eg; left; reflexivity).
    apply group_rows_In in Hr. destruct Hr as [Hr <-].
    apply in_map. assumption. }
  split; intros (_ & cl & Hb & Hne & Hm); (split; [|eauto]).
  - apply (Hkey (group_rows u rows) cl); [rewrite group_rows_idem|]; assumption.
  - apply (Hkey rows cl); assumption.
Qed.

Lemma unit_median_independent_witness :
  exists out_u,
    compute_median_from_csv (group_rows (py "3550308") mixed_rows) (qz 1212)
    = Ok out_u
    /\ forall m,
        In (py "3550308", m)
           [(py "2304400", NaN); (py "3550308", Fin (qz 400 / qz 3))]
        <-> In (py "3550308", m) out_u.
Proof.
  apply (unit_median_independent mixed_rows (qz 1212)). qc_compute.
Defined.

